(** * Item-based rating prediction: a model of [movie_recommendations.py]

    The development follows the Python module class by class.  Python
    integers are [Z].  Ratings and similarity scores, which the program
    holds as floats, are exact rationals in canonical form ([Qc]): the
    arithmetic of the model is the arithmetic the formulas are written in,
    and binary64 rounding, infinities and NaN are outside of it.  What is
    read from the three CSV files enters the model already parsed, as
    lists of rows; opening and tokenising the files is not modelled. *)

From Stdlib Require Import List ZArith QArith Qcanon Qcabs String Bool Lia Lqa.
Import ListNotations.

Local Open Scope Z_scope.
Local Open Scope list_scope.

(** ** Python dictionaries keyed by integers

    A [dict] keeps its entries in insertion order and holds a key at most
    once: assigning to a key that is present replaces the value where it
    stands, assigning to a new key appends an entry. *)

Module Dict.

Definition t (V : Type) : Type := list (Z * V).

Definition empty {V : Type} : t V := [].

Fixpoint lookup {V : Type} (k : Z) (d : t V) : option V :=
  match d with
  | [] => None
  | (k', v) :: rest => if k =? k' then Some v else lookup k rest
  end.

(** [k in d] *)
Definition contains {V : Type} (k : Z) (d : t V) : bool :=
  match lookup k d with
  | Some _ => true
  | None => false
  end.

(** [d[k] = v] *)
Fixpoint insert {V : Type} (k : Z) (v : V) (d : t V) : t V :=
  match d with
  | [] => [(k, v)]
  | (k', v') :: rest =>
      if k =? k' then (k, v) :: rest else (k', v') :: insert k v rest
  end.

Definition keys {V : Type} (d : t V) : list Z := map fst d.

Definition values {V : Type} (d : t V) : list V := map snd d.

End Dict.

(** ** Numbers *)

Definition Qc_of_Z (n : Z) : Qc := Q2Qc (inject_Z n).

(** The literals [4.5] and [2.5]. *)
Definition four_and_a_half : Qc := Q2Qc (9 # 2).
Definition two_and_a_half : Qc := Q2Qc (5 # 2).

(** ** Exceptions

    [BadInputError] is the module's own exception class.  [KeyError] is
    what indexing a dictionary by an absent key raises; the module never
    catches it. *)

Inductive exn : Type :=
| BadInputError
| KeyError.

Definition result (A : Type) : Type := (exn + A)%type.

(** ** The objects *)

(** [class Movie]: [users] is the list of the ids of the users who rated
    the movie, [similarities] the memo table from another movie's id to
    the similarity with it. *)
Record Movie : Type := mkMovie {
  id : Z;
  title : string;
  users : list Z;
  similarities : Dict.t Qc
}.

(** [Movie.__init__] *)
Definition Movie_init (id0 : Z) (title0 : string) : Movie :=
  {| id := id0; title := title0; users := []; similarities := Dict.empty |}.

(** [Movie.__str__] *)
Definition Movie_str (m : Movie) : string := title m.

(** [class Movie_Recommendations].  Every [Movie] object of a run is
    created by the constructor and held by [movie_dict] under one key
    only, so an object is identified by the key it is stored under and
    mutating the object is replacing the entry at that key. *)
Record Movie_Recommendations : Type := mkEngine {
  movie_dict : Dict.t Movie;
  user_dict : Dict.t (Dict.t Qc)
}.

(** ** Computations that raise and mutate

    A method call takes the engine as it is and gives back either the
    exception raised or the value returned, together with the engine as
    the call leaves it: what was written before an exception is raised
    stays written. *)

Definition M (A : Type) : Type :=
  Movie_Recommendations -> result A * Movie_Recommendations.

Definition ret {A : Type} (a : A) : M A := fun e => (inr a, e).

Definition raise {A : Type} (x : exn) : M A := fun e => (inl x, e).

Definition bind {A B : Type} (m : M A) (f : A -> M B) : M B :=
  fun e =>
    match m e with
    | (inr a, e') => f a e'
    | (inl x, e') => (inl x, e')
    end.

Notation "x <- m ;; k" := (bind m (fun x => k))
  (at level 61, m at next level, right associativity).

Definition get_movie_dict : M (Dict.t Movie) := fun e => (inr (movie_dict e), e).

Definition get_user_dict : M (Dict.t (Dict.t Qc)) := fun e => (inr (user_dict e), e).

Definition put_movie_dict (md : Dict.t Movie) : M unit :=
  fun e => (inr tt, {| movie_dict := md; user_dict := user_dict e |}).

(** [d[k]] as an expression: [KeyError] when [k] is absent. *)
Definition index {V : Type} (k : Z) (d : Dict.t V) : M V :=
  match Dict.lookup k d with
  | Some v => ret v
  | None => raise KeyError
  end.

(** ** [Movie.compute_similarity] *)

(** One turn of the loop over the users: [ratings] is [user_dict[key]],
    the accumulator is [(num_of_ratings, abs_diff_of_ratings)]. *)
Definition compute_similarity_step (self_id other_movie_id : Z)
    (acc : Z * Qc) (ratings : Dict.t Qc) : Z * Qc :=
  let '(num_of_ratings, abs_diff_of_ratings) := acc in
  match Dict.lookup self_id ratings, Dict.lookup other_movie_id ratings with
  | Some rtg_1, Some rtg_2 =>
      (num_of_ratings + 1, (abs_diff_of_ratings + Qcabs (rtg_1 - rtg_2))%Qc)
  | _, _ => acc
  end.

Definition compute_similarity (self : Movie) (other_movie_id : Z)
    (movie_dict0 : Dict.t Movie) (user_dict0 : Dict.t (Dict.t Qc)) : Qc :=
  let '(num_of_ratings, abs_diff_of_ratings) :=
    fold_left (compute_similarity_step (id self) other_movie_id)
              (Dict.values user_dict0) (0, 0%Qc) in
  if negb (num_of_ratings =? 0) then
    let avg_difference := (abs_diff_of_ratings / Qc_of_Z num_of_ratings)%Qc in
    (1 - avg_difference / four_and_a_half)%Qc
  else 0%Qc.

(** ** [Movie.get_similarity]

    [get_similarity self_key other_movie_id] is the call
    [movie_dict[self_key].get_similarity(other_movie_id, movie_dict, user_dict)]
    as [predict_rating] makes it: the receiver is the object stored under
    [self_key], and indexing the catalog for it is part of the
    expression. *)

Definition set_similarity (m : Movie) (k : Z) (s : Qc) : Movie :=
  {| id := id m; title := title m; users := users m;
     similarities := Dict.insert k s (similarities m) |}.

Definition get_similarity (self_key other_movie_id : Z) : M Qc :=
  md <- get_movie_dict ;;
  ud <- get_user_dict ;;
  self <- index self_key md ;;
  if negb (Dict.contains other_movie_id md) then raise BadInputError
  else
    match Dict.lookup other_movie_id (similarities self) with
    | Some s => ret s
    | None =>
        let similarity := compute_similarity self other_movie_id md ud in
        let md1 := Dict.insert self_key
                     (set_similarity self other_movie_id similarity) md in
        other <- index other_movie_id md1 ;;
        let md2 := Dict.insert other_movie_id
                     (set_similarity other (id self) similarity) md1 in
        _ <- put_movie_dict md2 ;;
        ret similarity
    end.

(** ** [Movie_Recommendations.predict_rating] *)

(** The loop over [ratings], from the entries still to visit; the
    accumulators are [total] and [sum_of_similarities]. *)
Fixpoint predict_rating_loop (movie_id : Z) (entries : list (Z * Qc))
    (total sum_of_similarities : Qc) : M (Qc * Qc) :=
  match entries with
  | [] => ret (total, sum_of_similarities)
  | (key, rating) :: rest =>
      similarity <- get_similarity key movie_id ;;
      predict_rating_loop movie_id rest
        (total + similarity * rating)%Qc
        (sum_of_similarities + similarity)%Qc
  end.

Definition predict_rating (user_id movie_id : Z) : M Qc :=
  md <- get_movie_dict ;;
  ud <- get_user_dict ;;
  if negb (Dict.contains user_id ud) || negb (Dict.contains movie_id md)
  then raise BadInputError
  else
    ratings <- index user_id ud ;;
    match Dict.lookup movie_id ratings with
    | Some r => ret r
    | None =>
        acc <- predict_rating_loop movie_id ratings 0%Qc 0%Qc ;;
        let '(total, sum_of_similarities) := acc in
        if Qc_eq_dec sum_of_similarities 0%Qc
        then ret two_and_a_half
        else ret (total / sum_of_similarities)%Qc
    end.

(** ** [Movie_Recommendations.predict_ratings]

    The rows of the test file are [(user_id, mov_id, mov_rating)].  The
    tuple is built left to right: the title is looked up before
    [predict_rating] is called. *)

Definition probe : Type := (Z * Z * Qc)%type.

Definition prediction : Type := (Z * string * Qc * Qc)%type.

Fixpoint predict_ratings_loop (rows : list probe)
    (movie_tuples_lst : list prediction) : M (list prediction) :=
  match rows with
  | [] => ret movie_tuples_lst
  | (user_id, mov_id, mov_rating) :: rest =>
      md <- get_movie_dict ;;
      mv <- index mov_id md ;;
      predicted <- predict_rating user_id mov_id ;;
      let movie_tuple := (user_id, Movie_str mv, predicted, mov_rating) in
      predict_ratings_loop rest (movie_tuples_lst ++ [movie_tuple])
  end.

Definition predict_ratings (rows : list probe) : M (list prediction) :=
  predict_ratings_loop rows [].

(** ** [Movie_Recommendations.correlation]

    [pearsonr] is SciPy's; the method hands it the two lists and takes
    the first component of what it returns.  It is a parameter here. *)

Definition correlation
    (pearsonr : list Qc -> list Qc -> result (Qc * Qc))
    (predicted_ratings actual_ratings : list Qc) : M Qc :=
  match pearsonr predicted_ratings actual_ratings with
  | inr p => ret (fst p)
  | inl x => raise x
  end.

(** ** [Movie_Recommendations.__init__]

    [catalog] holds the rows of the movie file as [(mov_id, mov_title)],
    [training] the rows of the training file as
    [(cur_user_id, mov_id, mov_rating)]. *)

Definition load_movies (catalog : list (Z * string)) : Dict.t Movie :=
  fold_left (fun md line =>
               let '(mov_id, mov_title) := line in
               Dict.insert mov_id (Movie_init mov_id mov_title) md)
            catalog Dict.empty.

Definition append_user (m : Movie) (u : Z) : Movie :=
  {| id := id m; title := title m; users := users m ++ [u];
     similarities := similarities m |}.

Fixpoint load_ratings (training : list probe)
    (md : Dict.t Movie) (ud : Dict.t (Dict.t Qc))
    : result (Dict.t Movie * Dict.t (Dict.t Qc)) :=
  match training with
  | [] => inr (md, ud)
  | (cur_user_id, mov_id, mov_rating) :: rest =>
      let ud1 := if negb (Dict.contains cur_user_id ud)
                 then Dict.insert cur_user_id Dict.empty ud else ud in
      match Dict.lookup cur_user_id ud1 with
      | None => inl KeyError
      | Some ratings =>
          let ud2 := Dict.insert cur_user_id
                       (Dict.insert mov_id mov_rating ratings) ud1 in
          match Dict.lookup mov_id md with
          | None => inl KeyError
          | Some mv =>
              load_ratings rest
                (Dict.insert mov_id (append_user mv cur_user_id) md) ud2
          end
      end
  end.

Definition Movie_Recommendations_init (catalog : list (Z * string))
    (training : list probe) : result Movie_Recommendations :=
  match load_ratings training (load_movies catalog) Dict.empty with
  | inr (md, ud) => inr {| movie_dict := md; user_dict := ud |}
  | inl x => inl x
  end.

(** ** The spec's end-to-end example, run *)

Definition example_catalog : list (Z * string) :=
  [(1, "A"%string); (2, "B"%string)].

Definition example_training : list probe :=
  [(1, 1, Qc_of_Z 5); (1, 2, Qc_of_Z 3); (2, 1, Qc_of_Z 4); (2, 2, Qc_of_Z 4);
   (3, 1, Qc_of_Z 4)].

Definition example_engine : Movie_Recommendations :=
  match Movie_Recommendations_init example_catalog example_training with
  | inr e => e
  | inl _ => {| movie_dict := Dict.empty; user_dict := Dict.empty |}
  end.

(** ** Reading the store *)

(** [rating_of e u m] is the rating user [u] gave movie [m], if any. *)
Definition rating_of (e : Movie_Recommendations) (u m : Z) : option Qc :=
  match Dict.lookup u (user_dict e) with
  | Some ratings => Dict.lookup m ratings
  | None => None
  end.

(** [cache e a b] is the entry for [b] in the memo table of the movie
    stored under [a], if any. *)
Definition cache (e : Movie_Recommendations) (a b : Z) : option Qc :=
  match Dict.lookup a (movie_dict e) with
  | Some m => Dict.lookup b (similarities m)
  | None => None
  end.

(** ** The operations a caller has once the engine is built *)

Inductive op : Type :=
| OpPredictRating (user_id movie_id : Z)
| OpGetSimilarity (self_key other_movie_id : Z)
| OpPredictRatings (rows : list probe).

(** The engine as the operation leaves it, whether it returned or raised. *)
Definition run (o : op) (e : Movie_Recommendations) : Movie_Recommendations :=
  match o with
  | OpPredictRating u m => snd (predict_rating u m e)
  | OpGetSimilarity a b => snd (get_similarity a b e)
  | OpPredictRatings rows => snd (predict_ratings rows e)
  end.

(** The engines a run can hold: the one the constructor returns, and
    what any operation makes of one of them. *)
Inductive reachable : Movie_Recommendations -> Prop :=
| reachable_init catalog training e :
    Movie_Recommendations_init catalog training = inr e -> reachable e
| reachable_run o e : reachable e -> reachable (run o e).

(** [later e e']: [e'] is [e] after some operations. *)
Inductive later (e : Movie_Recommendations) : Movie_Recommendations -> Prop :=
| later_now : later e e
| later_run o e' : later e e' -> later e (run o e').

(** ** The similarity of the spec

    The co-raters of [a] and [b] are the users whose ratings hold both;
    the similarity is 0 without co-raters and otherwise 1 minus the mean
    absolute difference of their two ratings over 4.5. *)

Definition Qc_sum (l : list Qc) : Qc := fold_right Qcplus 0%Qc l.

Definition co_raters (a b : Z) (ud : Dict.t (Dict.t Qc)) : list (Z * Dict.t Qc) :=
  filter (fun entry => Dict.contains a (snd entry) && Dict.contains b (snd entry)) ud.

Definition rating_or_0 (ratings : Dict.t Qc) (m : Z) : Qc :=
  match Dict.lookup m ratings with
  | Some r => r
  | None => 0%Qc
  end.

Definition abs_diffs (a b : Z) (ud : Dict.t (Dict.t Qc)) : list Qc :=
  map (fun entry => Qcabs (rating_or_0 (snd entry) a - rating_or_0 (snd entry) b))
      (co_raters a b ud).

Definition mean (l : list Qc) : Qc :=
  (Qc_sum l / Qc_of_Z (Z.of_nat (List.length l)))%Qc.

Definition similarity_spec (a b : Z) (ud : Dict.t (Dict.t Qc)) : Qc :=
  match co_raters a b ud with
  | [] => 0%Qc
  | _ :: _ => (1 - mean (abs_diffs a b ud) / four_and_a_half)%Qc
  end.

(** ** The weighted average of the spec *)

Definition weights (e : Movie_Recommendations) (ratings : Dict.t Qc) (m : Z)
    : list Qc :=
  map (fun entry => similarity_spec (fst entry) m (user_dict e)) ratings.

Definition weighted_ratings (e : Movie_Recommendations) (ratings : Dict.t Qc)
    (m : Z) : list Qc :=
  map (fun entry => (similarity_spec (fst entry) m (user_dict e) * snd entry)%Qc)
      ratings.

(** ** What stays and what grows *)

(** From [e] to [e'] the ratings, the catalog's keys and every movie's id,
    title and rater list are the same, and every memo entry of [e] is in
    [e'] with the same value. *)
Definition only_caches_grow (e e' : Movie_Recommendations) : Prop :=
  user_dict e' = user_dict e /\
  Dict.keys (movie_dict e') = Dict.keys (movie_dict e) /\
  forall k m, Dict.lookup k (movie_dict e) = Some m ->
    exists m', Dict.lookup k (movie_dict e') = Some m' /\
      id m' = id m /\ title m' = title m /\ users m' = users m /\
      forall j s, Dict.lookup j (similarities m) = Some s ->
                  Dict.lookup j (similarities m') = Some s.

(** ** Ratings on the half-star scale *)

Definition on_scale (r : Qc) : bool :=
  Qle_bool (1 # 2) r && Qle_bool r 5.

Definition ratings_on_scale (e : Movie_Recommendations) : bool :=
  forallb (fun ratings => forallb on_scale (Dict.values ratings))
          (Dict.values (user_dict e)).

(** ** The invariant of a built engine *)

Record inv (e : Movie_Recommendations) : Prop := {
  inv_ids : forall k m, Dict.lookup k (movie_dict e) = Some m -> id m = k;
  inv_rated : forall u m r,
    rating_of e u m = Some r -> Dict.contains m (movie_dict e) = true;
  inv_cache : forall a b s,
    cache e a b = Some s ->
    s = similarity_spec a b (user_dict e) /\ cache e b a = Some s;
  inv_users : NoDup (Dict.keys (user_dict e))
}.

(** Every movie of [md] is in [md'] under its key, but for its memo table. *)
Definition same_data (md md' : Dict.t Movie) : Prop :=
  forall k m, Dict.lookup k md = Some m ->
    exists m', Dict.lookup k md' = Some m' /\
      id m' = id m /\ title m' = title m /\ users m' = users m.

(** The engine after [get_similarity a b] missed its memo table. *)
Definition memoised (a b : Z) (v : Qc) (self other : Movie)
    (e : Movie_Recommendations) : Movie_Recommendations :=
  {| movie_dict :=
       Dict.insert b (set_similarity other a v)
         (Dict.insert a (set_similarity self b v) (movie_dict e));
     user_dict := user_dict e |}.

(** The pairs [get_similarity a b] writes. *)
Definition written (a b x y : Z) : bool :=
  ((x =? a) && (y =? b)) || ((x =? b) && (y =? a)).

(** A catalog whose movies carry their key as id and an empty memo table. *)
Definition fresh (md : Dict.t Movie) : Prop :=
  forall k m, Dict.lookup k md = Some m -> id m = k /\ similarities m = [].

(** Every rated movie is in the catalog. *)
Definition rated_in (md : Dict.t Movie) (ud : Dict.t (Dict.t Qc)) : Prop :=
  forall u ratings m,
    Dict.lookup u ud = Some ratings ->
    Dict.lookup m ratings <> None -> Dict.lookup m md <> None.

(** The ratings of user 3 in [example_engine]. *)
Definition example_ratings_3 : Dict.t Qc := [(1, Qc_of_Z 4)].

(** Two users with no movie in common, and the engine built from them. *)
Definition disjoint_training : list probe :=
  [(1, 1, Qc_of_Z 5); (2, 2, Qc_of_Z 3)].

Definition disjoint_engine : Movie_Recommendations :=
  match Movie_Recommendations_init example_catalog disjoint_training with
  | inr e => e
  | inl _ => {| movie_dict := Dict.empty; user_dict := Dict.empty |}
  end.

(** One user giving both movies the same rating. *)
Definition agreeing_training : list probe :=
  [(1, 1, Qc_of_Z 4); (1, 2, Qc_of_Z 4)].

Definition agreeing_engine : Movie_Recommendations :=
  match Movie_Recommendations_init example_catalog agreeing_training with
  | inr e => e
  | inl _ => {| movie_dict := Dict.empty; user_dict := Dict.empty |}
  end.

(** ** The batch of the spec

    For a known user and a catalog movie: the rating if there is one,
    else the weighted average or the default. *)
Definition prediction_spec (e : Movie_Recommendations) (u m : Z) : Qc :=
  match Dict.lookup u (user_dict e) with
  | Some ratings =>
      match Dict.lookup m ratings with
      | Some r => r
      | None =>
          if Qc_eq_dec (Qc_sum (weights e ratings m)) 0%Qc
          then two_and_a_half
          else (Qc_sum (weighted_ratings e ratings m) /
                Qc_sum (weights e ratings m))%Qc
      end
  | None => 0%Qc
  end.

Definition title_of (e : Movie_Recommendations) (m : Z) : string :=
  match Dict.lookup m (movie_dict e) with
  | Some mv => Movie_str mv
  | None => EmptyString
  end.

Definition tuple_spec (e : Movie_Recommendations) (row : probe) : prediction :=
  let '(u, m, r) := row in (u, title_of e m, prediction_spec e u m, r).

Definition known_row (e : Movie_Recommendations) (row : probe) : Prop :=
  let '(u, m, r) := row in
  Dict.contains u (user_dict e) = true /\ Dict.contains m (movie_dict e) = true.

(** ** What the constructor reads off its rows *)

(** The rating of the last training row of user [u] for movie [m]. *)
Definition last_rating (training : list probe) (u m : Z) : option Qc :=
  fold_left (fun acc row =>
               let '(cur_user_id, mov_id, mov_rating) := row in
               if (u =? cur_user_id) && (m =? mov_id) then Some mov_rating
               else acc)
            training None.

(** The users of the training rows for movie [m], row by row. *)
Definition raters_of (training : list probe) (m : Z) : list Z :=
  map (fun row => fst (fst row))
      (filter (fun row => snd (fst row) =? m) training).

(** The title of the last catalog row with id [k]. *)
Definition last_title (catalog : list (Z * string)) (k : Z) : option string :=
  fold_left (fun acc line => if k =? fst line then Some (snd line) else acc)
            catalog None.

(** [rating_of] on a bare [user_dict]. *)
Definition rating_in (ud : Dict.t (Dict.t Qc)) (u m : Z) : option Qc :=
  match Dict.lookup u ud with
  | Some ratings => Dict.lookup m ratings
  | None => None
  end.

(** A movie with more raters appended. *)
Definition append_users (m : Movie) (us : list Z) : Movie :=
  {| id := id m; title := title m; users := users m ++ us;
     similarities := similarities m |}.

(** The columns of a tuple of [predict_ratings]. *)
Definition tuple_user (t : prediction) : Z := fst (fst (fst t)).
Definition tuple_predicted (t : prediction) : Qc := snd (fst t).
Definition tuple_actual (t : prediction) : Qc := snd t.




(** The rater lists agree with the ratings. *)
Definition raters_agree (e : Movie_Recommendations) : Prop :=
  forall m mv u,
    Dict.lookup m (movie_dict e) = Some mv ->
    (In u (users mv) <-> rating_of e u m <> None).

(** ** The driver

    The [__main__] block builds the engine, predicts the test rows and
    prints the predictions and their correlation with the actual ratings.
    Printing is left out: [main] returns the correlation it would print. *)
Definition main (pearsonr : list Qc -> list Qc -> result (Qc * Qc))
    (catalog : list (Z * string)) (training test : list probe) : result Qc :=
  match Movie_Recommendations_init catalog training with
  | inl x => inl x
  | inr movie_recs =>
      match predict_ratings test movie_recs with
      | (inl x, _) => inl x
      | (inr rating_predictions, movie_recs') =>
          let predicted := map tuple_predicted rating_predictions in
          let actual := map tuple_actual rating_predictions in
          fst (correlation pearsonr predicted actual movie_recs')
      end
  end.

(** A stand-in for [pearsonr] that answers 1 and 0. *)
Definition constant_pearsonr (xs ys : list Qc) : result (Qc * Qc) :=
  inr (Qc_of_Z 1, Qc_of_Z 0).

(** * Properties *)

(** ** Dictionaries *)

Module DictFacts.
Import Dict.

Section Facts.
Context {V : Type}.
Implicit Types (d : t V) (k : Z) (v : V).

Lemma lookup_insert_eq k v d : lookup k (insert k v d) = Some v.
Proof.
  induction d as [|[k' v'] d IH]; simpl.
  - now rewrite Z.eqb_refl.
  - destruct (k =? k') eqn:E; simpl.
    + now rewrite Z.eqb_refl.
    + now rewrite E.
Qed.

Lemma lookup_insert_ne k k' v d :
  k <> k' -> lookup k' (insert k v d) = lookup k' d.
Proof.
  intros Hne. induction d as [|[k0 v0] d IH]; simpl.
  - destruct (Z.eqb_spec k' k); [congruence | reflexivity].
  - destruct (Z.eqb_spec k k0); simpl.
    + subst k0. destruct (Z.eqb_spec k' k); [congruence | reflexivity].
    + destruct (k' =? k0); [reflexivity | exact IH].
Qed.

Lemma lookup_insert k k' v d :
  lookup k' (insert k v d) = if k' =? k then Some v else lookup k' d.
Proof.
  destruct (Z.eqb_spec k' k).
  - subst. apply lookup_insert_eq.
  - apply lookup_insert_ne. congruence.
Qed.

Lemma contains_true k d : contains k d = true <-> lookup k d <> None.
Proof. unfold contains. destruct (lookup k d); split; congruence. Qed.

Lemma contains_false k d : contains k d = false <-> lookup k d = None.
Proof. unfold contains. destruct (lookup k d); split; congruence. Qed.

Lemma lookup_In k v d : lookup k d = Some v -> In (k, v) d.
Proof.
  induction d as [|[k' v'] d IH]; simpl; [discriminate|].
  destruct (Z.eqb_spec k k').
  - intros [= ->]. subst. now left.
  - intros H. right. now apply IH.
Qed.

Lemma In_lookup k v d : In (k, v) d -> lookup k d <> None.
Proof.
  induction d as [|[k' v'] d IH]; simpl; [tauto|].
  intros [H | H].
  - injection H as -> ->. now rewrite Z.eqb_refl.
  - destruct (k =? k'); [discriminate | now apply IH].
Qed.

Lemma lookup_keys k d : lookup k d <> None <-> In k (keys d).
Proof.
  induction d as [|[k' v'] d IH]; simpl; [tauto|].
  destruct (Z.eqb_spec k k').
  - subst. split; [now left | discriminate].
  - rewrite IH. split; [now right | intros [H | H]; [congruence | exact H]].
Qed.

Lemma NoDup_In_lookup k v d :
  NoDup (keys d) -> In (k, v) d -> lookup k d = Some v.
Proof.
  induction d as [|[k' v'] d IH]; simpl; [tauto|].
  intros Hnd [H | H].
  - injection H as -> ->. now rewrite Z.eqb_refl.
  - inversion Hnd as [|? ? Hnotin Hnd']; subst.
    destruct (Z.eqb_spec k k').
    + subst. exfalso. apply Hnotin. apply (in_map fst) in H. exact H.
    + now apply IH.
Qed.

Lemma keys_insert_present k v d :
  lookup k d <> None -> keys (insert k v d) = keys d.
Proof.
  induction d as [|[k' v'] d IH]; simpl; [congruence|].
  destruct (Z.eqb_spec k k'); simpl.
  - now subst.
  - intros H. now rewrite IH.
Qed.

Lemma keys_insert_absent k v d :
  lookup k d = None -> keys (insert k v d) = keys d ++ [k].
Proof.
  induction d as [|[k' v'] d IH]; simpl; [reflexivity|].
  destruct (Z.eqb_spec k k'); simpl; [discriminate|].
  intros H. now rewrite IH.
Qed.

Lemma NoDup_keys_insert k v d : NoDup (keys d) -> NoDup (keys (insert k v d)).
Proof.
  intros Hnd. destruct (lookup k d) eqn:E.
  - rewrite keys_insert_present; [exact Hnd | congruence].
  - rewrite keys_insert_absent by exact E.
    apply NoDup_app; [exact Hnd | repeat constructor; simpl; tauto |].
    intros x Hx [<- | []]. apply lookup_keys in Hx. congruence.
Qed.

End Facts.
End DictFacts.

Import DictFacts.

(** ** The co-rater scan *)

Section Scan.
Variables a b : Z.

Lemma co_raters_cons u ratings ud :
  co_raters a b ((u, ratings) :: ud) =
    match Dict.lookup a ratings, Dict.lookup b ratings with
    | Some _, Some _ => (u, ratings) :: co_raters a b ud
    | _, _ => co_raters a b ud
    end.
Proof.
  unfold co_raters, Dict.contains; simpl.
  destruct (Dict.lookup a ratings), (Dict.lookup b ratings); reflexivity.
Qed.

Lemma scan_counts ud : forall n s,
  fold_left (compute_similarity_step a b) (Dict.values ud) (n, s) =
    (n + Z.of_nat (List.length (co_raters a b ud)),
     (s + Qc_sum (abs_diffs a b ud))%Qc).
Proof.
  induction ud as [|[u ratings] ud IH]; intros n s.
  - simpl. now rewrite Z.add_0_r, Qcplus_0_r.
  - cbn [Dict.values map snd fold_left]. unfold compute_similarity_step at 2.
    unfold abs_diffs. rewrite co_raters_cons.
    destruct (Dict.lookup a ratings) as [r1|] eqn:E1;
      [destruct (Dict.lookup b ratings) as [r2|] eqn:E2|];
      fold (Dict.values ud); rewrite IH; try reflexivity.
    cbn [map List.length snd Qc_sum fold_right]. unfold rating_or_0 at 1 2.
    rewrite E1, E2. f_equal; [lia | now rewrite Qcplus_assoc].
Qed.

End Scan.

Lemma compute_similarity_spec self other_movie_id md ud :
  compute_similarity self other_movie_id md ud =
    similarity_spec (id self) other_movie_id ud.
Proof.
  unfold compute_similarity, similarity_spec, mean.
  rewrite scan_counts. simpl.
  assert (E : List.length (abs_diffs (id self) other_movie_id ud) =
              List.length (co_raters (id self) other_movie_id ud))
    by (unfold abs_diffs; apply length_map).
  rewrite E, Qcplus_0_l.
  destruct (co_raters (id self) other_movie_id ud); reflexivity.
Qed.

Lemma co_raters_sym a b ud : co_raters a b ud = co_raters b a ud.
Proof. unfold co_raters. apply filter_ext. intros x. apply andb_comm. Qed.

Lemma similarity_spec_sym a b ud : similarity_spec a b ud = similarity_spec b a ud.
Proof.
  unfold similarity_spec, abs_diffs. rewrite (co_raters_sym a b).
  destruct (co_raters b a ud) eqn:E; [reflexivity|].
  do 3 f_equal. apply map_ext. intros x. apply Qcabs_Qcminus.
Qed.

Lemma same_keys_lookup {V : Type} (d d' : Dict.t V) k :
  Dict.keys d' = Dict.keys d -> Dict.lookup k d' <> None -> Dict.lookup k d <> None.
Proof. intros E H. apply lookup_keys. rewrite <- E. now apply lookup_keys. Qed.

Lemma inv_carried e e' :
  inv e ->
  user_dict e' = user_dict e ->
  Dict.keys (movie_dict e') = Dict.keys (movie_dict e) ->
  same_data (movie_dict e) (movie_dict e') ->
  (forall x y s, cache e' x y = Some s ->
     s = similarity_spec x y (user_dict e) /\ cache e' y x = Some s) ->
  inv e'.
Proof.
  intros [Hid Hr Hc Hu] Eu Ek Hd Hc'. split.
  - intros k m' Hk.
    destruct (Dict.lookup k (movie_dict e)) as [m|] eqn:E.
    + destruct (Hd k m E) as (m'' & Hk' & Hi & _).
      rewrite Hk in Hk'. injection Hk' as <-. rewrite Hi. now apply Hid.
    + exfalso. apply (same_keys_lookup _ _ k Ek); congruence.
  - intros u m r H. unfold rating_of in H. rewrite Eu in H.
    specialize (Hr u m r H). apply contains_true in Hr. apply contains_true.
    apply (same_keys_lookup _ _ m (eq_sym Ek)). exact Hr.
  - intros a b s H. rewrite Eu. now apply Hc'.
  - now rewrite Eu.
Qed.

Lemma only_caches_grow_intro e e' :
  user_dict e' = user_dict e ->
  Dict.keys (movie_dict e') = Dict.keys (movie_dict e) ->
  same_data (movie_dict e) (movie_dict e') ->
  (forall x y s, cache e x y = Some s -> cache e' x y = Some s) ->
  only_caches_grow e e'.
Proof.
  intros Eu Ek Hd Hc. repeat split; try assumption.
  intros k m Hk. destruct (Hd k m Hk) as (m' & Hk' & Hi & Ht & Hus).
  exists m'. repeat split; try assumption.
  intros j s Hj. specialize (Hc k j s). unfold cache in Hc.
  rewrite Hk, Hk' in Hc. now apply Hc.
Qed.

Lemma only_caches_grow_cache e e' x y s :
  only_caches_grow e e' -> cache e x y = Some s -> cache e' x y = Some s.
Proof.
  intros (_ & _ & H). unfold cache.
  destruct (Dict.lookup x (movie_dict e)) as [m|] eqn:E; [|discriminate].
  destruct (H x m E) as (m' & -> & _ & _ & _ & Hc). apply Hc.
Qed.

Lemma only_caches_grow_refl e : only_caches_grow e e.
Proof.
  repeat split. intros k m Hk. exists m. repeat split; auto.
Qed.

Lemma only_caches_grow_trans e1 e2 e3 :
  only_caches_grow e1 e2 -> only_caches_grow e2 e3 -> only_caches_grow e1 e3.
Proof.
  intros (Eu1 & Ek1 & H1) (Eu2 & Ek2 & H2). repeat split; try congruence.
  intros k m Hk. destruct (H1 k m Hk) as (m2 & Hk2 & Hi & Ht & Hus & Hc).
  destruct (H2 k m2 Hk2) as (m3 & Hk3 & Hi3 & Ht3 & Hus3 & Hc3).
  exists m3. repeat split; try congruence. intros j s Hj. auto.
Qed.

(** ** [get_similarity], branch by branch *)

Lemma get_similarity_eq a b e :
  get_similarity a b e =
    match Dict.lookup a (movie_dict e) with
    | None => (inl KeyError, e)
    | Some self =>
        if negb (Dict.contains b (movie_dict e)) then (inl BadInputError, e)
        else
          match Dict.lookup b (similarities self) with
          | Some s => (inr s, e)
          | None =>
              let v := compute_similarity self b (movie_dict e) (user_dict e) in
              let md1 := Dict.insert a (set_similarity self b v) (movie_dict e) in
              match Dict.lookup b md1 with
              | None => (inl KeyError, e)
              | Some other =>
                  (inr v,
                   {| movie_dict :=
                        Dict.insert b (set_similarity other (id self) v) md1;
                      user_dict := user_dict e |})
              end
          end
    end.
Proof.
  unfold get_similarity, bind, get_movie_dict, get_user_dict, index,
    put_movie_dict, ret, raise.
  destruct (Dict.lookup a (movie_dict e)) as [self|]; [|reflexivity].
  destruct (negb (Dict.contains b (movie_dict e))); [reflexivity|].
  destruct (Dict.lookup b (similarities self)); [reflexivity|].
  cbv zeta.
  destruct (Dict.lookup b (Dict.insert a _ (movie_dict e))); reflexivity.
Qed.

Lemma memoised_cache a b v self mb e x y :
  Dict.lookup a (movie_dict e) = Some self ->
  Dict.lookup b (movie_dict e) = Some mb ->
  cache (memoised a b v self (if b =? a then set_similarity self b v else mb) e) x y =
    if ((x =? a) && (y =? b)) || ((x =? b) && (y =? a)) then Some v
    else cache e x y.
Proof.
  intros Ha Hb. unfold cache, memoised. cbn [movie_dict].
  rewrite !lookup_insert.
  destruct (Z.eqb_spec x b) as [-> | Nxb].
  - cbn [similarities set_similarity]. rewrite lookup_insert.
    destruct (Z.eqb_spec b a) as [-> | Nba].
    + cbn [similarities set_similarity]. rewrite lookup_insert.
      rewrite Ha. destruct (y =? a); reflexivity.
    + rewrite Hb. simpl. destruct (y =? a); reflexivity.
  - simpl. rewrite orb_false_r.
    destruct (Z.eqb_spec x a) as [-> | Nxa].
    + cbn [similarities set_similarity]. rewrite lookup_insert, Ha.
      destruct (y =? b); reflexivity.
    + reflexivity.
Qed.

Lemma memoised_same_data a b v self mb e :
  Dict.lookup a (movie_dict e) = Some self ->
  Dict.lookup b (movie_dict e) = Some mb ->
  same_data (movie_dict e)
    (movie_dict (memoised a b v self (if b =? a then set_similarity self b v else mb) e)).
Proof.
  intros Ha Hb k m Hk. unfold memoised. cbn [movie_dict].
  rewrite !lookup_insert.
  destruct (Z.eqb_spec k b) as [-> | Nkb].
  - eexists. split; [reflexivity|].
    destruct (Z.eqb_spec b a) as [-> | Nba]; simpl.
    + rewrite Ha in Hk. injection Hk as <-. auto.
    + rewrite Hb in Hk. injection Hk as <-. auto.
  - destruct (Z.eqb_spec k a) as [-> | Nka].
    + eexists. split; [reflexivity|]. rewrite Ha in Hk. injection Hk as <-.
      simpl. auto.
    + exists m. auto.
Qed.

Lemma memoised_keys a b v self other e :
  Dict.lookup a (movie_dict e) <> None ->
  Dict.lookup b (movie_dict e) <> None ->
  Dict.keys (movie_dict (memoised a b v self other e)) = Dict.keys (movie_dict e).
Proof.
  intros Ha Hb. unfold memoised. cbn [movie_dict].
  rewrite keys_insert_present.
  - now apply keys_insert_present.
  - rewrite lookup_insert. destruct (b =? a); [discriminate | exact Hb].
Qed.

Lemma written_sym a b x y : written a b x y = written a b y x.
Proof. unfold written. rewrite orb_comm. f_equal; apply andb_comm. Qed.

Lemma written_true a b x y :
  written a b x y = true -> (x = a /\ y = b) \/ (x = b /\ y = a).
Proof.
  unfold written. intros H. apply orb_true_iff in H.
  destruct H as [H | H]; apply andb_true_iff in H; destruct H as [H1 H2];
    apply Z.eqb_eq in H1, H2; auto.
Qed.

Lemma written_self a b : written a b a b = true.
Proof. unfold written. now rewrite !Z.eqb_refl. Qed.

(** What a call of [get_similarity] on two catalog movies does to a built
    engine. *)
Lemma get_similarity_correct e a b :
  inv e ->
  Dict.contains a (movie_dict e) = true ->
  Dict.contains b (movie_dict e) = true ->
  exists e',
    get_similarity a b e = (inr (similarity_spec a b (user_dict e)), e') /\
    inv e' /\ only_caches_grow e e' /\
    cache e' a b = Some (similarity_spec a b (user_dict e)) /\
    cache e' b a = Some (similarity_spec a b (user_dict e)).
Proof.
  intros I Ha Hb.
  destruct (Dict.lookup a (movie_dict e)) as [self|] eqn:Ea;
    [|apply contains_true in Ha; congruence].
  destruct (Dict.lookup b (movie_dict e)) as [mb|] eqn:Eb;
    [|apply contains_true in Hb; congruence].
  rewrite get_similarity_eq, Ea, Hb. cbn [negb].
  destruct (Dict.lookup b (similarities self)) as [s|] eqn:Es.
  - assert (Hc : cache e a b = Some s) by (unfold cache; now rewrite Ea).
    destruct (inv_cache e I a b s Hc) as [-> Hsym].
    exists e. split; [reflexivity|]. split; [exact I|].
    split; [apply only_caches_grow_refl|]. split; assumption.
  - assert (Hc : cache e a b = None) by (unfold cache; now rewrite Ea).
    assert (Hc' : cache e b a = None).
    { destruct (cache e b a) as [s|] eqn:E; [|reflexivity].
      destruct (inv_cache e I b a s E) as [_ H]. congruence. }
    cbv zeta. rewrite lookup_insert, Eb.
    rewrite (inv_ids e I a self Ea), compute_similarity_spec,
      (inv_ids e I a self Ea).
    set (v := similarity_spec a b (user_dict e)).
    set (other := if b =? a then set_similarity self b v else mb).
    replace (if b =? a then Some (set_similarity self b v) else Some mb)
      with (Some other) by (unfold other; destruct (b =? a); reflexivity).
    change {| movie_dict := _; user_dict := _ |} with (memoised a b v self other e).
    assert (Hcache : forall x y,
               cache (memoised a b v self other e) x y =
               if written a b x y then Some v else cache e x y)
      by (intros x y; apply memoised_cache; assumption).
    exists (memoised a b v self other e).
    assert (Hkeys : Dict.keys (movie_dict (memoised a b v self other e)) =
                    Dict.keys (movie_dict e))
      by (apply memoised_keys; congruence).
    assert (Hdata : same_data (movie_dict e)
                      (movie_dict (memoised a b v self other e)))
      by (apply memoised_same_data; assumption).
    split; [reflexivity|]. split; [|split; [|split]].
    + apply (inv_carried e); try assumption; try reflexivity.
      intros x y s. rewrite !Hcache, (written_sym a b y x).
      destruct (written a b x y) eqn:W; [|apply (inv_cache e I)].
      intros [= <-]. split; [|reflexivity].
      destruct (written_true _ _ _ _ W) as [[-> ->] | [-> ->]];
        [reflexivity | apply similarity_spec_sym].
    + apply only_caches_grow_intro; try assumption; try reflexivity.
      intros x y s H. rewrite Hcache.
      destruct (written a b x y) eqn:W; [|exact H].
      destruct (written_true _ _ _ _ W) as [[-> ->] | [-> ->]]; congruence.
    + now rewrite Hcache, written_self.
    + now rewrite Hcache, written_sym, written_self.
Qed.

(** Whatever its arguments, [get_similarity] leaves a built engine built,
    with nothing changed but memo entries added. *)
Lemma get_similarity_keeps e a b :
  inv e ->
  inv (snd (get_similarity a b e)) /\
  only_caches_grow e (snd (get_similarity a b e)).
Proof.
  intros I.
  destruct (Dict.contains a (movie_dict e)) eqn:Ha.
  - destruct (Dict.contains b (movie_dict e)) eqn:Hb.
    + destruct (get_similarity_correct e a b I Ha Hb) as (e' & -> & I' & G & _).
      now split.
    + rewrite get_similarity_eq, Hb.
      destruct (Dict.lookup a (movie_dict e)); simpl;
        (split; [exact I | apply only_caches_grow_refl]).
  - apply contains_false in Ha. rewrite get_similarity_eq, Ha. simpl.
    split; [exact I | apply only_caches_grow_refl].
Qed.

(** ** [predict_rating] *)

Lemma predict_rating_eq u m e :
  predict_rating u m e =
    if negb (Dict.contains u (user_dict e)) || negb (Dict.contains m (movie_dict e))
    then (inl BadInputError, e)
    else
      match Dict.lookup u (user_dict e) with
      | None => (inl KeyError, e)
      | Some ratings =>
          match Dict.lookup m ratings with
          | Some r => (inr r, e)
          | None =>
              match predict_rating_loop m ratings 0%Qc 0%Qc e with
              | (inr (total, sum_of_similarities), e') =>
                  if Qc_eq_dec sum_of_similarities 0%Qc
                  then (inr two_and_a_half, e')
                  else (inr (total / sum_of_similarities)%Qc, e')
              | (inl x, e') => (inl x, e')
              end
          end
      end.
Proof.
  unfold predict_rating, bind, get_movie_dict, get_user_dict, index, ret, raise.
  destruct (negb (Dict.contains u (user_dict e)) ||
            negb (Dict.contains m (movie_dict e))); [reflexivity|].
  destruct (Dict.lookup u (user_dict e)) as [ratings|]; [|reflexivity].
  destruct (Dict.lookup m ratings); [reflexivity|].
  destruct (predict_rating_loop m ratings 0%Qc 0%Qc e) as [[x | [t s]] e'];
    [reflexivity|].
  destruct (Qc_eq_dec s 0%Qc); reflexivity.
Qed.

Lemma predict_rating_loop_correct m entries : forall e total sum_of_similarities,
  inv e ->
  Dict.contains m (movie_dict e) = true ->
  (forall k r, In (k, r) entries -> Dict.contains k (movie_dict e) = true) ->
  exists e',
    predict_rating_loop m entries total sum_of_similarities e =
      (inr ((total + Qc_sum (weighted_ratings e entries m))%Qc,
            (sum_of_similarities + Qc_sum (weights e entries m))%Qc), e') /\
    inv e' /\ only_caches_grow e e'.
Proof.
  induction entries as [|[key rating] rest IH]; intros e t s I Hm Hk.
  - exists e. simpl. rewrite !Qcplus_0_r.
    split; [reflexivity|]. split; [exact I | apply only_caches_grow_refl].
  - cbn [predict_rating_loop]. unfold bind.
    destruct (get_similarity_correct e key m I) as (e1 & -> & I1 & G1 & _);
      [apply (Hk key rating); now left | exact Hm |].
    pose proof G1 as (Eu & Ek & _).
    assert (Hin : forall k, Dict.contains k (movie_dict e) = true ->
                            Dict.contains k (movie_dict e1) = true).
    { intros k H. apply contains_true. apply contains_true in H.
      apply (same_keys_lookup _ _ k (eq_sym Ek)). exact H. }
    destruct (IH e1 (t + similarity_spec key m (user_dict e) * rating)%Qc
                 (s + similarity_spec key m (user_dict e))%Qc I1)
      as (e' & -> & I' & G').
    + now apply Hin.
    + intros k r H. apply Hin. apply (Hk k r). now right.
    + exists e'. split; [|split; [exact I' | now apply (only_caches_grow_trans e e1)]].
      unfold weighted_ratings, weights. rewrite Eu. simpl.
      now rewrite !Qcplus_assoc.
Qed.

(** Without assumption on the arguments: whatever the loop does, a built
    engine stays built and only gains memo entries. *)
Lemma predict_rating_loop_keeps m entries : forall e total sum_of_similarities,
  inv e ->
  inv (snd (predict_rating_loop m entries total sum_of_similarities e)) /\
  only_caches_grow e (snd (predict_rating_loop m entries total sum_of_similarities e)).
Proof.
  induction entries as [|[key rating] rest IH]; intros e t s I.
  - simpl. split; [exact I | apply only_caches_grow_refl].
  - cbn [predict_rating_loop]. unfold bind.
    destruct (get_similarity_keeps e key m I) as [I1 G1].
    destruct (get_similarity key m e) as [[x | v] e1]; simpl in I1, G1.
    + now split.
    + destruct (IH e1 (t + v * rating)%Qc (s + v)%Qc I1) as [I' G'].
      split; [exact I' | now apply (only_caches_grow_trans e e1)].
Qed.

Lemma predict_rating_keeps u m e :
  inv e ->
  inv (snd (predict_rating u m e)) /\ only_caches_grow e (snd (predict_rating u m e)).
Proof.
  intros I. rewrite predict_rating_eq.
  destruct (negb (Dict.contains u (user_dict e)) ||
            negb (Dict.contains m (movie_dict e)));
    [split; [exact I | apply only_caches_grow_refl]|].
  destruct (Dict.lookup u (user_dict e)) as [ratings|];
    [|split; [exact I | apply only_caches_grow_refl]].
  destruct (Dict.lookup m ratings);
    [split; [exact I | apply only_caches_grow_refl]|].
  pose proof (predict_rating_loop_keeps m ratings e 0%Qc 0%Qc I) as H.
  destruct (predict_rating_loop m ratings 0%Qc 0%Qc e) as [[x | [t s]] e'];
    [exact H|].
  destruct (Qc_eq_dec s 0%Qc); exact H.
Qed.

(** ** [predict_ratings] *)

Lemma predict_ratings_loop_keeps rows : forall acc e,
  inv e ->
  inv (snd (predict_ratings_loop rows acc e)) /\
  only_caches_grow e (snd (predict_ratings_loop rows acc e)).
Proof.
  induction rows as [|[[u m] r] rest IH]; intros acc e I.
  - simpl. split; [exact I | apply only_caches_grow_refl].
  - cbn [predict_ratings_loop]. unfold bind, get_movie_dict, index, ret, raise.
    destruct (Dict.lookup m (movie_dict e)) as [mv|];
      [|split; [exact I | apply only_caches_grow_refl]].
    destruct (predict_rating_keeps u m e I) as [I1 G1].
    destruct (predict_rating u m e) as [[x | p] e1]; simpl in I1, G1.
    + now split.
    + destruct (IH (acc ++ [(u, Movie_str mv, p, r)]) e1 I1) as [I' G'].
      split; [exact I' | now apply (only_caches_grow_trans e e1)].
Qed.

Lemma run_keeps o e :
  inv e -> inv (run o e) /\ only_caches_grow e (run o e).
Proof.
  intros I. destruct o as [u m | a b | rows]; simpl.
  - now apply predict_rating_keeps.
  - now apply get_similarity_keeps.
  - now apply predict_ratings_loop_keeps.
Qed.

(** ** The constructor *)

Lemma In_keys_insert {V : Type} k k' (v : V) d :
  In k (Dict.keys (Dict.insert k' v d)) <-> k = k' \/ In k (Dict.keys d).
Proof.
  rewrite <- !lookup_keys, lookup_insert.
  destruct (Z.eqb_spec k k'); split; try tauto; try congruence.
Qed.

Lemma load_movies_acc catalog : forall md,
  fresh md ->
  fresh (fold_left (fun md line =>
                      let '(mov_id, mov_title) := line in
                      Dict.insert mov_id (Movie_init mov_id mov_title) md)
                   catalog md) /\
  forall k,
    In k (Dict.keys (fold_left (fun md line =>
                      let '(mov_id, mov_title) := line in
                      Dict.insert mov_id (Movie_init mov_id mov_title) md)
                   catalog md)) <->
    In k (Dict.keys md) \/ In k (map fst catalog).
Proof.
  induction catalog as [|[mov_id mov_title] rest IH]; intros md F.
  - simpl. split; [exact F | tauto].
  - cbn [fold_left map fst].
    destruct (IH (Dict.insert mov_id (Movie_init mov_id mov_title) md)) as [F' K'].
    + intros k m. rewrite lookup_insert. destruct (Z.eqb_spec k mov_id).
      * intros [= <-]. subst. now split.
      * apply F.
    + split; [exact F'|]. intros k. rewrite K', In_keys_insert. simpl.
      intuition (subst; auto).
Qed.

Lemma load_movies_fresh catalog : fresh (load_movies catalog).
Proof. apply load_movies_acc. intros k m H. discriminate. Qed.

Lemma load_movies_keys catalog k :
  In k (Dict.keys (load_movies catalog)) <-> In k (map fst catalog).
Proof.
  unfold load_movies.
  destruct (load_movies_acc catalog Dict.empty) as [_ K].
  - intros k' m H. discriminate.
  - rewrite K. simpl. tauto.
Qed.

(** The user's dictionary is there once lines 62-63 have run. *)
Lemma user_entry_ready (u : Z) (ud : Dict.t (Dict.t Qc)) :
  exists ratings,
    Dict.lookup u (if negb (Dict.contains u ud)
                   then Dict.insert u Dict.empty ud else ud) = Some ratings /\
    (Dict.lookup u ud = Some ratings \/
     (Dict.lookup u ud = None /\ ratings = Dict.empty)).
Proof.
  unfold Dict.contains. destruct (Dict.lookup u ud) as [ratings|] eqn:E; simpl.
  - exists ratings. split; [exact E | now left].
  - exists Dict.empty. split; [apply lookup_insert_eq | now right].
Qed.

Lemma user_entry_others (u u' : Z) (ud : Dict.t (Dict.t Qc)) :
  u' <> u ->
  Dict.lookup u' (if negb (Dict.contains u ud)
                  then Dict.insert u Dict.empty ud else ud) = Dict.lookup u' ud.
Proof.
  intros N. destruct (negb (Dict.contains u ud)); [|reflexivity].
  apply lookup_insert_ne. congruence.
Qed.

Lemma load_ratings_inv training : forall md ud md' ud',
  fresh md -> rated_in md ud -> NoDup (Dict.keys ud) ->
  load_ratings training md ud = inr (md', ud') ->
  fresh md' /\ rated_in md' ud' /\ NoDup (Dict.keys ud').
Proof.
  induction training as [|[[u m] r] rest IH]; intros md ud md' ud' F R N.
  - simpl. intros [= <- <-]. auto.
  - cbn [load_ratings]. cbv zeta.
    destruct (user_entry_ready u ud) as (ratings & -> & Hr).
    destruct (Dict.lookup m md) as [mv|] eqn:Em; [|discriminate].
    apply IH.
    + intros k mk. rewrite lookup_insert. destruct (Z.eqb_spec k m).
      * intros [= <-]. subst. simpl. now apply F.
      * apply F.
    + intros u' rs m'. rewrite !lookup_insert.
      destruct (Z.eqb_spec u' u) as [-> | Nu].
      * intros [= <-]. rewrite lookup_insert.
        destruct (Z.eqb_spec m' m); [discriminate|].
        destruct Hr as [Hr | [_ ->]]; [|intros H; now elim H].
        apply (R u ratings m' Hr).
      * rewrite user_entry_others by exact Nu.
        destruct (Z.eqb_spec m' m); [discriminate|]. apply R.
    + apply NoDup_keys_insert.
      destruct (negb (Dict.contains u ud)); [now apply NoDup_keys_insert | exact N].
Qed.

Lemma init_inv catalog training e :
  Movie_Recommendations_init catalog training = inr e -> inv e.
Proof.
  unfold Movie_Recommendations_init.
  destruct (load_ratings training (load_movies catalog) Dict.empty)
    as [x | [md ud]] eqn:E; [discriminate|].
  intros [= <-].
  destruct (load_ratings_inv training _ Dict.empty md ud
              (load_movies_fresh catalog)) as (F & R & N).
  - intros u rs m H. discriminate.
  - constructor.
  - exact E.
  - split; cbn [movie_dict user_dict].
    + intros k m H. now apply F.
    + intros u m r H. unfold rating_of in H. cbn [user_dict] in H.
      destruct (Dict.lookup u ud) as [rs|] eqn:Eu; [|discriminate].
      apply contains_true. apply (R u rs m Eu). congruence.
    + intros a b s H. unfold cache in H. cbn [movie_dict] in H.
      destruct (Dict.lookup a md) as [m|] eqn:Ea; [|discriminate].
      destruct (F a m Ea) as [_ Hs]. rewrite Hs in H. discriminate.
    + exact N.
Qed.

Lemma reachable_inv e : reachable e -> inv e.
Proof.
  induction 1 as [catalog training e H | o e _ IH].
  - exact (init_inv catalog training e H).
  - now apply run_keeps.
Qed.

Lemma later_keeps e e' :
  inv e -> later e e' -> inv e' /\ only_caches_grow e e'.
Proof.
  intros I. induction 1 as [|o e' _ [I' G']].
  - split; [exact I | apply only_caches_grow_refl].
  - destruct (run_keeps o e' I') as [I2 G2].
    split; [exact I2 | now apply (only_caches_grow_trans e e')].
Qed.

(** A load that meets a rating for a movie outside the catalog ends in a
    failed lookup. *)
Lemma load_ratings_missing training : forall md ud,
  (exists u m r, In (u, m, r) training /\ ~ In m (Dict.keys md)) ->
  load_ratings training md ud = inl KeyError.
Proof.
  induction training as [|[[u0 m0] r0] rest IH];
    intros md ud (u & m & r & Hin & Hm).
  - destruct Hin.
  - cbn [load_ratings]. cbv zeta.
    destruct (user_entry_ready u0 ud) as (ratings & -> & _).
    destruct (Dict.lookup m0 md) as [mv|] eqn:Em; [|reflexivity].
    apply IH. exists u, m, r. destruct Hin as [[= -> -> ->] | Hin].
    + exfalso. apply Hm. apply lookup_keys. congruence.
    + split; [exact Hin|]. rewrite keys_insert_present by congruence. exact Hm.
Qed.

(** ** Shared consequences *)

(** A memo entry answers the call, and the engine is left as it was. *)
Lemma get_similarity_hit e a b v :
  cache e a b = Some v ->
  Dict.contains b (movie_dict e) = true ->
  get_similarity a b e = (inr v, e).
Proof.
  unfold cache. intros Hc Hb. rewrite get_similarity_eq.
  destruct (Dict.lookup a (movie_dict e)) as [self|]; [|discriminate].
  now rewrite Hb, Hc.
Qed.

Lemma only_caches_grow_contains e e' k :
  only_caches_grow e e' ->
  Dict.contains k (movie_dict e) = true -> Dict.contains k (movie_dict e') = true.
Proof.
  intros (_ & Ek & _) H. apply contains_true. apply contains_true in H.
  apply (same_keys_lookup _ _ k (eq_sym Ek)). exact H.
Qed.

(** The prediction for a movie the user has not rated. *)
Lemma predict_rating_unrated e u m ratings :
  inv e ->
  Dict.lookup u (user_dict e) = Some ratings ->
  Dict.contains m (movie_dict e) = true ->
  Dict.lookup m ratings = None ->
  exists e',
    predict_rating u m e =
      (inr (if Qc_eq_dec (Qc_sum (weights e ratings m)) 0%Qc
            then two_and_a_half
            else (Qc_sum (weighted_ratings e ratings m) /
                  Qc_sum (weights e ratings m))%Qc), e') /\
    inv e' /\ only_caches_grow e e'.
Proof.
  intros I Hu Hm Hr. rewrite predict_rating_eq.
  unfold Dict.contains at 1. rewrite Hu, Hm, Hr. cbn [negb orb].
  destruct (predict_rating_loop_correct m ratings e 0%Qc 0%Qc I Hm)
    as (e' & -> & I' & G').
  - intros k r H. destruct (Dict.lookup k ratings) as [r'|] eqn:E.
    + apply (inv_rated e I u k r'). unfold rating_of. now rewrite Hu.
    + exfalso. now apply (In_lookup k r ratings H).
  - exists e'. rewrite !Qcplus_0_l.
    destruct (Qc_eq_dec (Qc_sum (weights e ratings m)) 0%Qc); auto.
Qed.

Lemma example_engine_built :
  Movie_Recommendations_init example_catalog example_training = inr example_engine.
Proof. reflexivity. Qed.

Lemma example_engine_reachable : reachable example_engine.
Proof. exact (reachable_init _ _ _ example_engine_built). Qed.

(** The prediction on a built engine, rated or not. *)
Lemma predict_rating_known e u m :
  inv e ->
  Dict.contains u (user_dict e) = true ->
  Dict.contains m (movie_dict e) = true ->
  exists e',
    predict_rating u m e = (inr (prediction_spec e u m), e') /\
    inv e' /\ only_caches_grow e e'.
Proof.
  intros I Hu Hm. unfold prediction_spec.
  destruct (Dict.lookup u (user_dict e)) as [ratings|] eqn:Eu;
    [|apply contains_true in Hu; congruence].
  destruct (Dict.lookup m ratings) as [r|] eqn:Er.
  - exists e. rewrite predict_rating_eq, Hu, Hm, Eu, Er.
    split; [reflexivity|]. split; [exact I | apply only_caches_grow_refl].
  - exact (predict_rating_unrated e u m ratings I Eu Hm Er).
Qed.

Lemma tuple_spec_stable e e' row :
  only_caches_grow e e' -> tuple_spec e' row = tuple_spec e row.
Proof.
  intros (Eu & Ek & H). destruct row as [[u m] r].
  unfold tuple_spec, title_of, prediction_spec, weights, weighted_ratings.
  rewrite Eu. f_equal. f_equal. f_equal.
  destruct (Dict.lookup m (movie_dict e)) as [mv|] eqn:E.
  - destruct (H m mv E) as (mv' & -> & _ & Ht & _). exact Ht.
  - destruct (Dict.lookup m (movie_dict e')) eqn:E'; [|reflexivity].
    exfalso. apply (same_keys_lookup _ _ m Ek); congruence.
Qed.

Lemma known_row_stable e e' row :
  only_caches_grow e e' -> known_row e row -> known_row e' row.
Proof.
  intros G. destruct row as [[u m] r]. intros [Hu Hm]. split.
  - destruct G as (-> & _). exact Hu.
  - now apply (only_caches_grow_contains e).
Qed.

(** When every row names a known user and a catalog movie,
    [predict_ratings] returns one tuple per row, in order. *)
Lemma predict_ratings_loop_known rows : forall acc e,
  inv e ->
  Forall (known_row e) rows ->
  exists e',
    predict_ratings_loop rows acc e = (inr (acc ++ map (tuple_spec e) rows), e') /\
    inv e' /\ only_caches_grow e e'.
Proof.
  induction rows as [|[[u m] r] rest IH]; intros acc e I K.
  - exists e. simpl. rewrite app_nil_r.
    split; [reflexivity|]. split; [exact I | apply only_caches_grow_refl].
  - inversion K as [|? ? Hrow K']; subst. destruct Hrow as [Hu Hm].
    cbn [predict_ratings_loop]. unfold bind, get_movie_dict, index, ret.
    destruct (Dict.lookup m (movie_dict e)) as [mv|] eqn:Em;
      [|apply contains_true in Hm; congruence].
    destruct (predict_rating_known e u m I Hu Hm) as (e1 & -> & I1 & G1).
    destruct (IH (acc ++ [(u, Movie_str mv, prediction_spec e u m, r)]) e1 I1)
      as (e' & -> & I' & G').
    + eapply Forall_impl; [|exact K']. intros row. now apply known_row_stable.
    + exists e'. split; [|split; [exact I' | now apply (only_caches_grow_trans e e1)]].
      rewrite <- app_assoc. cbn [app map tuple_spec]. unfold title_of at 1.
      rewrite Em.
      rewrite (map_ext (tuple_spec e1) (tuple_spec e))
        by (intros row; now apply tuple_spec_stable).
      reflexivity.
Qed.

(** The example of the spec: movies 1 and 2 have similarity 7/9, and the
    prediction for user 3, who rated movie 1 with 4, on movie 2 is 4. *)
Example example_similarity :
  fst (get_similarity 1 2 example_engine) = inr (Q2Qc (7 # 9)).
Proof. vm_compute. apply f_equal. apply Qc_is_canon. reflexivity. Qed.

Example example_prediction :
  fst (predict_rating 3 2 example_engine) = inr (Qc_of_Z 4).
Proof. vm_compute. apply f_equal. apply Qc_is_canon. reflexivity. Qed.

(** * Main theorems *)

(** C1. Ground truth precedence: when user [u] has rated the catalog
    movie [m] with [r], [predict_rating u m] returns [r], whatever else
    the engine holds, and leaves the engine as it was. *)
Theorem predict_rating_ground_truth e u m r :
  Dict.contains m (movie_dict e) = true ->
  rating_of e u m = Some r ->
  predict_rating u m e = (inr r, e).
Proof.
  intros Hm Hr. unfold rating_of in Hr. rewrite predict_rating_eq.
  unfold Dict.contains at 1.
  destruct (Dict.lookup u (user_dict e)) as [ratings|]; [|discriminate].
  now rewrite Hm, Hr.
Qed.

Lemma predict_rating_ground_truth_witness :
  predict_rating 1 2 example_engine = (inr (Qc_of_Z 3), example_engine).
Proof.
  apply (predict_rating_ground_truth example_engine 1 2 (Qc_of_Z 3));
    reflexivity.
Defined.

(** C2. On a built engine [predict_rating u m] raises [BadInputError]
    exactly when [u] is not a key of [user_dict] or [m] is not a key of
    [movie_dict], and returns a value otherwise; [get_similarity] on a
    catalog movie raises [BadInputError] when [other_movie_id] is not a
    key of [movie_dict], and returns a value otherwise. *)
Theorem unknown_entity e u m a b :
  reachable e ->
  (fst (predict_rating u m e) = inl BadInputError <->
     Dict.contains u (user_dict e) = false \/
     Dict.contains m (movie_dict e) = false) /\
  (Dict.contains u (user_dict e) = true ->
   Dict.contains m (movie_dict e) = true ->
   exists v, fst (predict_rating u m e) = inr v) /\
  (Dict.contains a (movie_dict e) = true ->
   (Dict.contains b (movie_dict e) = false ->
    fst (get_similarity a b e) = inl BadInputError) /\
   (Dict.contains b (movie_dict e) = true ->
    exists v, fst (get_similarity a b e) = inr v)).
Proof.
  intros R. pose proof (reachable_inv e R) as I.
  assert (Hp : Dict.contains u (user_dict e) = true ->
               Dict.contains m (movie_dict e) = true ->
               exists v, fst (predict_rating u m e) = inr v).
  { intros Hu Hm.
    destruct (predict_rating_known e u m I Hu Hm) as (e' & -> & _).
    eexists. reflexivity. }
  split; [|split].
  - split.
    + intros H.
      destruct (Dict.contains u (user_dict e)) eqn:Hu; [|now left].
      destruct (Dict.contains m (movie_dict e)) eqn:Hm; [|now right].
      destruct (Hp eq_refl eq_refl) as [v Hv]. congruence.
    + intros H. rewrite predict_rating_eq.
      destruct H as [-> | ->]; [reflexivity|].
      now rewrite orb_true_r.
  - exact Hp.
  - intros Ha. split.
    + intros Hb. rewrite get_similarity_eq, Hb.
      destruct (Dict.lookup a (movie_dict e)) eqn:Ea; [reflexivity|].
      apply contains_true in Ha. congruence.
    + intros Hb.
      destruct (get_similarity_correct e a b I Ha Hb) as (e' & -> & _).
      eexists. reflexivity.
Qed.

Lemma unknown_entity_witness :
  fst (predict_rating 7 2 example_engine) = inl BadInputError /\
  fst (get_similarity 1 9 example_engine) = inl BadInputError.
Proof.
  destruct (unknown_entity example_engine 7 2 1 9 example_engine_reachable)
    as (Hp & _ & Hs).
  split.
  - apply Hp. left. reflexivity.
  - apply Hs; reflexivity.
Defined.

(** C3. [compute_similarity] is the formula: 0 when no user rated both
    movies, otherwise 1 minus the mean, over the users who rated both, of
    the absolute difference of their two ratings, divided by 4.5. *)
Theorem compute_similarity_formula self other_movie_id md ud :
  compute_similarity self other_movie_id md ud =
    match co_raters (id self) other_movie_id ud with
    | [] => 0%Qc
    | _ :: _ =>
        (1 - mean (abs_diffs (id self) other_movie_id ud) / four_and_a_half)%Qc
    end.
Proof. apply compute_similarity_spec. Qed.

(** C4. On a built engine and for catalog movies [a] and [b],
    [get_similarity a b] and [get_similarity b a] return the same value.
    The call leaves that value in both memo tables, and after any further
    operations a call in either direction returns it and changes nothing;
    it does so with any ratings put in place of the engine's, that is,
    without reading them. *)
Theorem get_similarity_symmetric_memoised e a b :
  reachable e ->
  Dict.contains a (movie_dict e) = true ->
  Dict.contains b (movie_dict e) = true ->
  fst (get_similarity a b e) = fst (get_similarity b a e) /\
  exists v e1,
    get_similarity a b e = (inr v, e1) /\
    cache e1 a b = Some v /\ cache e1 b a = Some v /\
    forall e2, later e1 e2 ->
      get_similarity a b e2 = (inr v, e2) /\
      get_similarity b a e2 = (inr v, e2) /\
      forall ud,
        let e3 := {| movie_dict := movie_dict e2; user_dict := ud |} in
        get_similarity a b e3 = (inr v, e3) /\
        get_similarity b a e3 = (inr v, e3).
Proof.
  intros R Ha Hb. pose proof (reachable_inv e R) as I.
  destruct (get_similarity_correct e a b I Ha Hb) as (e1 & E1 & I1 & G1 & C1 & C1').
  destruct (get_similarity_correct e b a I Hb Ha) as (e1' & E1' & _).
  split.
  - rewrite E1, E1'. simpl. now rewrite similarity_spec_sym.
  - exists (similarity_spec a b (user_dict e)), e1.
    repeat (split; [assumption|]).
    intros e2 L. destruct (later_keeps e1 e2 I1 L) as [I2 G2].
    assert (Ha2 : Dict.contains a (movie_dict e2) = true)
      by (apply (only_caches_grow_contains e1), (only_caches_grow_contains e);
          assumption).
    assert (Hb2 : Dict.contains b (movie_dict e2) = true)
      by (apply (only_caches_grow_contains e1), (only_caches_grow_contains e);
          assumption).
    pose proof (only_caches_grow_cache e1 e2 a b _ G2 C1) as C2.
    pose proof (only_caches_grow_cache e1 e2 b a _ G2 C1') as C2'.
    split; [now apply get_similarity_hit|].
    split; [now apply get_similarity_hit|].
    intros ud e3. split; apply get_similarity_hit; assumption.
Qed.

Lemma get_similarity_symmetric_memoised_witness :
  fst (get_similarity 1 2 example_engine) = fst (get_similarity 2 1 example_engine).
Proof.
  apply (get_similarity_symmetric_memoised example_engine 1 2
           example_engine_reachable); reflexivity.
Defined.

(** C5. On a built engine, for a known user [u] and a catalog movie [m]
    that [u] has not rated, with [w_i] the similarity of [m] and the
    [i]-th movie [u] rated (what [get_similarity] returns for the pair):
    [predict_rating u m] returns the sum of [w_i * rating_i] over the sum
    of the [w_i] when the latter is not 0, and 2.5 when it is 0. *)
Theorem predict_rating_weighted_average e u m ratings :
  reachable e ->
  Dict.lookup u (user_dict e) = Some ratings ->
  Dict.contains m (movie_dict e) = true ->
  Dict.lookup m ratings = None ->
  (forall k r, In (k, r) ratings ->
     fst (get_similarity k m e) = inr (similarity_spec k m (user_dict e))) /\
  (Qc_sum (weights e ratings m) <> 0%Qc ->
   fst (predict_rating u m e) =
     inr (Qc_sum (weighted_ratings e ratings m) / Qc_sum (weights e ratings m))%Qc) /\
  (Qc_sum (weights e ratings m) = 0%Qc ->
   fst (predict_rating u m e) = inr two_and_a_half).
Proof.
  intros R Hu Hm Hr. pose proof (reachable_inv e R) as I.
  destruct (predict_rating_unrated e u m ratings I Hu Hm Hr) as (e' & -> & _).
  split; [|split].
  - intros k r H.
    assert (Hk : Dict.contains k (movie_dict e) = true).
    { destruct (Dict.lookup k ratings) as [r'|] eqn:E.
      - apply (inv_rated e I u k r'). unfold rating_of. now rewrite Hu.
      - exfalso. now apply (In_lookup k r ratings H). }
    destruct (get_similarity_correct e k m I Hk Hm) as (e1 & -> & _).
    reflexivity.
  - intros N. simpl.
    destruct (Qc_eq_dec (Qc_sum (weights e ratings m)) 0%Qc); [contradiction|].
    reflexivity.
  - intros Z. simpl.
    destruct (Qc_eq_dec (Qc_sum (weights e ratings m)) 0%Qc); [|contradiction].
    reflexivity.
Qed.

Lemma predict_rating_weighted_average_witness :
  fst (predict_rating 3 2 example_engine) =
    inr (Qc_sum (weighted_ratings example_engine example_ratings_3 2) /
         Qc_sum (weights example_engine example_ratings_3 2))%Qc.
Proof.
  apply (predict_rating_weighted_average example_engine 3 2 example_ratings_3
           example_engine_reachable); try reflexivity.
  intros H. apply (f_equal this) in H. vm_compute in H. discriminate.
Defined.

(** [predict_ratings], row by row: a row whose movie is not in the
    catalog fails at the title lookup, before [predict_rating] is called;
    a row whose movie is in the catalog and whose user is unknown fails
    in [predict_rating]. *)
Lemma unknown_movie_row_fails e u m r rest :
  Dict.lookup m (movie_dict e) = None ->
  predict_ratings ((u, m, r) :: rest) e = (inl KeyError, e).
Proof.
  intros H. unfold predict_ratings. cbn [predict_ratings_loop].
  unfold bind, get_movie_dict, index, raise. now rewrite H.
Qed.

Lemma unknown_user_row_fails e u m r rest mv :
  Dict.lookup m (movie_dict e) = Some mv ->
  Dict.contains u (user_dict e) = false ->
  predict_ratings ((u, m, r) :: rest) e = (inl BadInputError, e).
Proof.
  intros Hm Hu. unfold predict_ratings. cbn [predict_ratings_loop].
  unfold bind, get_movie_dict, index, ret. rewrite Hm.
  now rewrite predict_rating_eq, Hu.
Qed.

Lemma known_rows_predicted e rows :
  reachable e ->
  Forall (known_row e) rows ->
  fst (predict_ratings rows e) = inr (map (tuple_spec e) rows).
Proof.
  intros R K. unfold predict_ratings.
  destruct (predict_ratings_loop_known rows [] e (reachable_inv e R) K)
    as (e' & -> & _).
  reflexivity.
Qed.

(** C6, where the code departs from it.  On the engine of the example,
    whose catalog holds movies 1 and 2, the test row of the known user 1
    for movie 3 makes [predict_ratings] fail with [KeyError], raised by
    the title lookup: [predict_rating], which raises [BadInputError] for
    a movie that is not in the catalog, is not reached. *)
Theorem predict_ratings_unknown_movie :
  predict_ratings [(1, 3, Qc_of_Z 4)] example_engine =
    (inl KeyError, example_engine) /\
  fst (predict_rating 1 3 example_engine) = inl BadInputError.
Proof. split; reflexivity. Qed.

(** C8. On a built engine no operation changes [user_dict], the keys of
    [movie_dict], or a movie's id, title or rater list, and every memo
    entry there was is still there with its value; [correlation] changes
    nothing at all. *)
Theorem operations_only_grow_caches e :
  reachable e ->
  (forall o, only_caches_grow e (run o e)) /\
  (forall pearsonr predicted_ratings actual_ratings,
     snd (correlation pearsonr predicted_ratings actual_ratings e) = e).
Proof.
  intros R. split.
  - intros o. now apply run_keeps, reachable_inv.
  - intros pearsonr p a. unfold correlation.
    destruct (pearsonr p a); reflexivity.
Qed.

Lemma operations_only_grow_caches_witness :
  only_caches_grow example_engine (run (OpPredictRating 3 2) example_engine).
Proof.
  apply (operations_only_grow_caches example_engine example_engine_reachable).
Defined.

(** C9. When some training row rates a movie that is not in the catalog,
    the constructor fails with [KeyError]: not with [BadInputError], and
    with no engine. *)
Theorem init_unknown_movie catalog training :
  (exists u m r, In (u, m, r) training /\ ~ In m (map fst catalog)) ->
  Movie_Recommendations_init catalog training = inl KeyError /\
  Movie_Recommendations_init catalog training <> inl BadInputError /\
  forall e, Movie_Recommendations_init catalog training <> inr e.
Proof.
  intros (u & m & r & Hin & Hm).
  assert (E : Movie_Recommendations_init catalog training = inl KeyError).
  { unfold Movie_Recommendations_init.
    rewrite (load_ratings_missing training (load_movies catalog) Dict.empty);
      [reflexivity|].
    exists u, m, r. split; [exact Hin|]. now rewrite load_movies_keys. }
  rewrite E. repeat split; intros; discriminate.
Qed.

Lemma init_unknown_movie_witness :
  Movie_Recommendations_init example_catalog [(1, 1, Qc_of_Z 5); (1, 3, Qc_of_Z 2)]
    = inl KeyError.
Proof.
  apply (init_unknown_movie example_catalog [(1, 1, Qc_of_Z 5); (1, 3, Qc_of_Z 2)]).
  exists 1, 3, (Qc_of_Z 2). split.
  - right. left. reflexivity.
  - simpl. lia.
Defined.

(** ** Arithmetic of the similarity formula *)

Ltac qc_to_q :=
  unfold Qcle, Qclt, Qcdiv, Qcminus, Qcplus, Qcmult, Qcopp, Qcinv, Q2Qc in *;
  cbn [this] in *; rewrite ?Qred_correct in *.

Lemma Qcabs_self (x : Qc) : Qcabs (x - x) = 0%Qc.
Proof.
  unfold Qcminus. rewrite Qcplus_opp_r. apply Qcabs_pos, Qcle_refl.
Qed.

Lemma Qcabs_on_scale (x y : Qc) :
  on_scale x = true -> on_scale y = true ->
  (0 <= Qcabs (x - y) /\ Qcabs (x - y) <= four_and_a_half)%Qc.
Proof.
  unfold on_scale. intros Hx Hy.
  apply andb_true_iff in Hx, Hy. destruct Hx as [Hx1 Hx2], Hy as [Hy1 Hy2].
  apply Qle_bool_iff in Hx1, Hx2, Hy1, Hy2.
  split; [apply Qcabs_nonneg|].
  apply Qcabs_diff_Qcle_condition. unfold four_and_a_half.
  split; qc_to_q; lra.
Qed.

Lemma Qc_of_nat_S (n : nat) :
  Qc_of_Z (Z.of_nat (S n)) = (1 + Qc_of_Z (Z.of_nat n))%Qc.
Proof.
  apply Qc_is_canon. unfold Qc_of_Z. qc_to_q.
  rewrite Nat2Z.inj_succ, <- Z.add_1_l, inject_Z_plus. reflexivity.
Qed.

Lemma Qc_of_nat_pos (n : nat) : (0 < Qc_of_Z (Z.of_nat (S n)))%Qc.
Proof.
  unfold Qc_of_Z. qc_to_q. unfold Qlt. simpl. lia.
Qed.

Lemma Qc_sum_bounds (c : Qc) (l : list Qc) :
  (forall d, In d l -> (0 <= d /\ d <= c)%Qc) ->
  (0 <= Qc_sum l /\ Qc_sum l <= c * Qc_of_Z (Z.of_nat (List.length l)))%Qc.
Proof.
  induction l as [|d l IH]; intros H.
  - simpl. split; [apply Qcle_refl|]. rewrite Qcmult_0_r. apply Qcle_refl.
  - destruct IH as [IH1 IH2]; [intros d' Hd'; apply H; now right|].
    destruct (H d) as [Hd1 Hd2]; [now left|].
    cbn [List.length Qc_sum fold_right]. rewrite Qc_of_nat_S.
    fold (Qc_sum l). split; qc_to_q; lra.
Qed.

Lemma Qc_sum_zeros (l : list Qc) :
  (forall d, In d l -> d = 0%Qc) -> Qc_sum l = 0%Qc.
Proof.
  induction l as [|d l IH]; intros H; [reflexivity|].
  simpl. rewrite (H d) by now left. rewrite Qcplus_0_l.
  apply IH. intros d' Hd'. apply H. now right.
Qed.

Lemma unit_interval (s n c : Qc) :
  (0 < n -> 0 < c -> 0 <= s -> s <= c * n ->
   0 <= 1 - s / n / c /\ 1 - s / n / c <= 1)%Qc.
Proof.
  intros Hn Hc Hs Hb.
  assert (H1 : (0 <= s / n / c)%Qc).
  { qc_to_q.
    apply Qmult_le_0_compat; [apply Qmult_le_0_compat|]; try assumption;
      apply Qinv_le_0_compat; lra. }
  assert (H2 : (s / n / c <= 1)%Qc).
  { qc_to_q.
    change (this s * / this n * / this c <= 1)%Q
      with (this s / this n / this c <= 1)%Q.
    apply Qle_shift_div_r; [assumption|].
    apply Qle_shift_div_r; [assumption|]. lra. }
  split; qc_to_q; lra.
Qed.

(** ** Bounds and extreme values of the similarity *)

Lemma lookup_values {V : Type} k (v : V) d :
  Dict.lookup k d = Some v -> In v (Dict.values d).
Proof.
  intros H. apply lookup_In in H. apply (in_map snd) in H. exact H.
Qed.

Lemma co_raters_In a b ud u ratings :
  In (u, ratings) (co_raters a b ud) <->
  In (u, ratings) ud /\
  exists ra rb, Dict.lookup a ratings = Some ra /\ Dict.lookup b ratings = Some rb.
Proof.
  unfold co_raters. rewrite filter_In. cbn [snd]. unfold Dict.contains.
  destruct (Dict.lookup a ratings) as [ra|], (Dict.lookup b ratings) as [rb|];
    split; intros [H1 H2]; split; try assumption; try discriminate;
    try reflexivity; try (destruct H2 as (? & ? & ? & ?); discriminate).
  now exists ra, rb.
Qed.

Lemma abs_diffs_In a b ud d :
  In d (abs_diffs a b ud) ->
  exists u ratings ra rb,
    In (u, ratings) ud /\
    Dict.lookup a ratings = Some ra /\ Dict.lookup b ratings = Some rb /\
    d = Qcabs (ra - rb).
Proof.
  unfold abs_diffs. rewrite in_map_iff. intros ([u ratings] & <- & H).
  apply co_raters_In in H. destruct H as (Hin & ra & rb & Ha & Hb).
  exists u, ratings, ra, rb. cbn [snd]. unfold rating_or_0. rewrite Ha, Hb. auto.
Qed.

Lemma similarity_spec_unit e a b :
  ratings_on_scale e = true ->
  (0 <= similarity_spec a b (user_dict e) /\
   similarity_spec a b (user_dict e) <= 1)%Qc.
Proof.
  intros S. unfold similarity_spec.
  destruct (co_raters a b (user_dict e)) as [|x l] eqn:E.
  - split; unfold Qcle; simpl; lra.
  - unfold mean.
    assert (L : List.length (abs_diffs a b (user_dict e)) = Datatypes.S (List.length l))
      by (unfold abs_diffs; rewrite E; simpl; now rewrite length_map).
    destruct (Qc_sum_bounds four_and_a_half (abs_diffs a b (user_dict e)))
      as [B1 B2].
    + intros d Hd.
      destruct (abs_diffs_In a b _ d Hd) as (u & rs & ra & rb & Hin & Ha & Hb & ->).
      unfold ratings_on_scale in S. rewrite forallb_forall in S.
      specialize (S rs (in_map snd _ _ Hin)). rewrite forallb_forall in S.
      apply Qcabs_on_scale; apply S; eapply lookup_values; eassumption.
    + rewrite L in *. apply unit_interval; try assumption.
      * apply Qc_of_nat_pos.
      * unfold four_and_a_half, Qclt. simpl. reflexivity.
Qed.

Lemma similarity_spec_agree a b ud :
  co_raters a b ud <> [] ->
  (forall d, In d (abs_diffs a b ud) -> d = 0%Qc) ->
  similarity_spec a b ud = 1%Qc.
Proof.
  intros N Z. unfold similarity_spec.
  destruct (co_raters a b ud); [congruence|].
  unfold mean. rewrite (Qc_sum_zeros _ Z). unfold Qcdiv.
  rewrite !Qcmult_0_l. ring.
Qed.

Lemma co_raters_of_rated e u a b ra rb :
  rating_of e u a = Some ra -> rating_of e u b = Some rb ->
  co_raters a b (user_dict e) <> [].
Proof.
  unfold rating_of. intros Ha Hb.
  destruct (Dict.lookup u (user_dict e)) as [rs|] eqn:Eu; [|discriminate].
  assert (H : In (u, rs) (co_raters a b (user_dict e))).
  { apply co_raters_In. split; [now apply lookup_In|]. now exists ra, rb. }
  intros E. rewrite E in H. destruct H.
Qed.

Lemma entry_rating_of e u rs m :
  inv e -> In (u, rs) (user_dict e) -> rating_of e u m = Dict.lookup m rs.
Proof.
  intros I H. unfold rating_of.
  now rewrite (NoDup_In_lookup u rs (user_dict e) (inv_users e I) H).
Qed.

Lemma agreeing_engine_reachable : reachable agreeing_engine.
Proof. apply (reachable_init example_catalog agreeing_training). reflexivity. Qed.

Lemma disjoint_engine_reachable : reachable disjoint_engine.
Proof. apply (reachable_init example_catalog disjoint_training). reflexivity. Qed.

(** C7, as the code has it.  On a built engine whose ratings all lie in
    [0.5, 5.0], the similarity of two catalog movies lies in
    [1 - 5/4.5, 1], and it is 1 when some user rated both movies and every
    user who rated both gave them the same rating. *)
Theorem similarity_bounds e a b :
  reachable e ->
  ratings_on_scale e = true ->
  Dict.contains a (movie_dict e) = true ->
  Dict.contains b (movie_dict e) = true ->
  exists v,
    fst (get_similarity a b e) = inr v /\
    (1 - Qc_of_Z 5 / four_and_a_half <= v /\ v <= 1)%Qc /\
    ((exists u ra rb, rating_of e u a = Some ra /\ rating_of e u b = Some rb) ->
     (forall u ra rb,
        rating_of e u a = Some ra -> rating_of e u b = Some rb -> ra = rb) ->
     v = 1%Qc).
Proof.
  intros R S Ha Hb. pose proof (reachable_inv e R) as I.
  destruct (get_similarity_correct e a b I Ha Hb) as (e' & -> & _).
  exists (similarity_spec a b (user_dict e)).
  split; [reflexivity|].
  destruct (similarity_spec_unit e a b S) as [B1 B2].
  split; [split; [|exact B2]|].
  - apply (Qcle_trans _ 0%Qc); [|exact B1].
    unfold Qcle. vm_compute. discriminate.
  - intros (u & ra & rb & Hra & Hrb) Hall.
    apply similarity_spec_agree.
    + exact (co_raters_of_rated e u a b ra rb Hra Hrb).
    + intros d Hd.
      destruct (abs_diffs_In a b _ d Hd) as (u' & rs & ra' & rb' & Hin & Ea & Eb & ->).
      rewrite (Hall u' ra' rb').
      * apply Qcabs_self.
      * now rewrite (entry_rating_of e u' rs a I Hin).
      * now rewrite (entry_rating_of e u' rs b I Hin).
Qed.

Lemma similarity_bounds_witness :
  exists v,
    fst (get_similarity 1 2 agreeing_engine) = inr v /\
    (1 - Qc_of_Z 5 / four_and_a_half <= v /\ v <= 1)%Qc /\
    ((exists u ra rb, rating_of agreeing_engine u 1 = Some ra /\
                      rating_of agreeing_engine u 2 = Some rb) ->
     (forall u ra rb,
        rating_of agreeing_engine u 1 = Some ra ->
        rating_of agreeing_engine u 2 = Some rb -> ra = rb) ->
     v = 1%Qc).
Proof.
  apply (similarity_bounds agreeing_engine 1 2 agreeing_engine_reachable);
    reflexivity.
Defined.

(** C7 as stated fails where no user rated both movies: the ratings are
    on the scale, every user who rated both movies (there is none) gave
    them the same rating, and the similarity is 0, not 1. *)
Lemma similarity_one_counterexample :
  reachable disjoint_engine /\
  ratings_on_scale disjoint_engine = true /\
  Dict.contains 1 (movie_dict disjoint_engine) = true /\
  Dict.contains 2 (movie_dict disjoint_engine) = true /\
  (forall u ra rb,
     rating_of disjoint_engine u 1 = Some ra ->
     rating_of disjoint_engine u 2 = Some rb -> ra = rb) /\
  fst (get_similarity 1 2 disjoint_engine) = inr 0%Qc /\
  fst (get_similarity 1 2 disjoint_engine) <> inr 1%Qc.
Proof.
  split; [exact disjoint_engine_reachable|].
  repeat (split; [reflexivity|]).
  split; [|split; [reflexivity|]].
  - intros u ra rb. unfold rating_of. cbn.
    destruct (u =? 1); [discriminate|].
    destruct (u =? 2); discriminate.
  - intros H. vm_compute in H. discriminate H.
Qed.

(** C10. On a built engine, the similarity of a catalog movie with itself
    is 1 when some user has rated the movie and 0 when none has. *)
Theorem self_similarity e m :
  reachable e ->
  Dict.contains m (movie_dict e) = true ->
  ((exists u r, rating_of e u m = Some r) ->
   fst (get_similarity m m e) = inr 1%Qc) /\
  ((forall u, rating_of e u m = None) ->
   fst (get_similarity m m e) = inr 0%Qc).
Proof.
  intros R Hm. pose proof (reachable_inv e R) as I.
  destruct (get_similarity_correct e m m I Hm Hm) as (e' & -> & _).
  cbn [fst]. split.
  - intros (u & r & Hr). f_equal. apply similarity_spec_agree.
    + exact (co_raters_of_rated e u m m r r Hr Hr).
    + intros d Hd.
      destruct (abs_diffs_In m m _ d Hd) as (u' & rs & ra & rb & _ & Ea & Eb & ->).
      rewrite Ea in Eb. injection Eb as <-. apply Qcabs_self.
  - intros Hnone. f_equal. unfold similarity_spec.
    destruct (co_raters m m (user_dict e)) as [|[u rs] l] eqn:E; [reflexivity|].
    assert (H : In (u, rs) (co_raters m m (user_dict e)))
      by (rewrite E; now left).
    apply co_raters_In in H. destruct H as (Hin & ra & _ & Ea & _).
    specialize (Hnone u). rewrite (entry_rating_of e u rs m I Hin) in Hnone.
    congruence.
Qed.

Lemma self_similarity_witness :
  fst (get_similarity 1 1 example_engine) = inr 1%Qc.
Proof.
  apply (self_similarity example_engine 1 example_engine_reachable);
    [reflexivity|].
  exists 1, (Qc_of_Z 5). reflexivity.
Defined.

(** * Further properties *)

(** ** What the constructor builds *)

Lemma load_ratings_succeeds training : forall md ud,
  (forall u m r, In (u, m, r) training -> Dict.lookup m md <> None) ->
  exists md' ud', load_ratings training md ud = inr (md', ud').
Proof.
  induction training as [|[[u0 m0] r0] rest IH]; intros md ud H.
  - now exists md, ud.
  - cbn [load_ratings]. cbv zeta.
    destruct (user_entry_ready u0 ud) as (ratings & -> & _).
    destruct (Dict.lookup m0 md) as [mv|] eqn:Em;
      [|exfalso; apply (H u0 m0 r0); [now left | exact Em]].
    apply IH. intros u m r Hin. rewrite lookup_insert.
    destruct (m =? m0); [discriminate|]. apply (H u m r). now right.
Qed.

Lemma append_users_nil mv : append_users mv [] = mv.
Proof. destruct mv. unfold append_users. simpl. now rewrite app_nil_r. Qed.

Lemma append_users_cons mv u us :
  append_users (append_user mv u) us = append_users mv (u :: us).
Proof. unfold append_users, append_user. simpl. now rewrite <- app_assoc. Qed.

(** Each movie of the catalog comes out of the load with the users of its
    rows appended, and nothing else changed. *)
Lemma load_ratings_movies training : forall md ud md' ud' k,
  load_ratings training md ud = inr (md', ud') ->
  Dict.lookup k md' =
    option_map (fun mv => append_users mv (raters_of training k))
               (Dict.lookup k md).
Proof.
  induction training as [|[[u0 m0] r0] rest IH]; intros md ud md' ud' k.
  - simpl. intros [= <- <-]. unfold raters_of. simpl.
    destruct (Dict.lookup k md) as [mv|]; [|reflexivity].
    simpl. now rewrite append_users_nil.
  - cbn [load_ratings]. cbv zeta.
    destruct (user_entry_ready u0 ud) as (ratings & -> & _).
    destruct (Dict.lookup m0 md) as [mv|] eqn:Em; [|discriminate].
    intros H. rewrite (IH _ _ _ _ k H), lookup_insert.
    unfold raters_of. cbn [filter fst snd].
    rewrite (Z.eqb_sym m0 k).
    destruct (Z.eqb_spec k m0) as [-> | N].
    + rewrite Em. cbn [option_map map fst]. now rewrite append_users_cons.
    + reflexivity.
Qed.

(** Each rating comes out of the load as its last row has it, or as it
    was when no row has it. *)
Lemma load_ratings_ratings training : forall md ud md' ud' u m,
  load_ratings training md ud = inr (md', ud') ->
  rating_in ud' u m =
    fold_left (fun acc row =>
                 let '(cur_user_id, mov_id, mov_rating) := row in
                 if (u =? cur_user_id) && (m =? mov_id) then Some mov_rating
                 else acc)
              training (rating_in ud u m).
Proof.
  induction training as [|[[u0 m0] r0] rest IH]; intros md ud md' ud' u m.
  - simpl. now intros [= <- <-].
  - cbn [load_ratings fold_left]. cbv zeta.
    destruct (user_entry_ready u0 ud) as (ratings & E & Hr). rewrite E.
    destruct (Dict.lookup m0 md) as [mv|] eqn:Em; [|discriminate].
    intros H. rewrite (IH _ _ _ _ u m H). f_equal.
    unfold rating_in. rewrite lookup_insert.
    destruct (Z.eqb_spec u u0) as [-> | N]; cbn [andb].
    + rewrite lookup_insert. destruct (m =? m0); [reflexivity|].
      destruct Hr as [-> | [-> ->]]; reflexivity.
    + now rewrite user_entry_others.
Qed.

Lemma last_title_from catalog k : forall acc,
  fold_left (fun acc line => if k =? fst line then Some (snd line) else acc)
            catalog acc =
    match last_title catalog k with
    | Some t => Some t
    | None => acc
    end.
Proof.
  unfold last_title.
  induction catalog as [|[k' t'] rest IH]; intros acc; [reflexivity|].
  cbn [fold_left fst snd]. destruct (k =? k').
  - rewrite (IH (Some t')).
    destruct (fold_left _ rest None); reflexivity.
  - apply IH.
Qed.

Lemma load_movies_lookup catalog k : forall md,
  Dict.lookup k (fold_left (fun md line =>
                      let '(mov_id, mov_title) := line in
                      Dict.insert mov_id (Movie_init mov_id mov_title) md)
                   catalog md) =
    match last_title catalog k with
    | Some t => Some (Movie_init k t)
    | None => Dict.lookup k md
    end.
Proof.
  induction catalog as [|[mov_id mov_title] rest IH]; intros md.
  - reflexivity.
  - cbn [fold_left]. rewrite IH, lookup_insert.
    unfold last_title at 2. cbn [fold_left fst snd]. rewrite last_title_from.
    destruct (last_title rest k); [reflexivity|].
    destruct (Z.eqb_spec k mov_id) as [-> | N]; reflexivity.
Qed.

Lemma last_rating_from (training : list probe) u m : forall acc : option Qc,
  fold_left (fun acc row =>
               let '(cur_user_id, mov_id, mov_rating) := row in
               if (u =? cur_user_id) && (m =? mov_id) then Some mov_rating
               else acc)
            training acc <> None <->
  acc <> None \/ exists r, In (u, m, r) training.
Proof.
  induction training as [|[[u0 m0] r0] rest IH]; intros acc.
  - simpl. split; [now left | intros [H | [r []]]; exact H].
  - cbn [fold_left]. rewrite IH. split.
    + intros [H | [r H]].
      * destruct (Z.eqb_spec u u0) as [-> | N]; cbn [andb] in H; [|now left].
        destruct (Z.eqb_spec m m0) as [-> | N]; [|now left].
        right. exists r0. now left.
      * right. exists r. now right.
    + intros [H | [r [H | H]]].
      * left. destruct ((u =? u0) && (m =? m0)); [discriminate | exact H].
      * injection H as -> -> ->. left. rewrite !Z.eqb_refl. discriminate.
      * right. now exists r.
Qed.

Lemma raters_of_In training u m :
  In u (raters_of training m) <-> exists r, In (u, m, r) training.
Proof.
  unfold raters_of. rewrite in_map_iff. split.
  - intros ([[u' m'] r] & <- & H). apply filter_In in H. cbn [fst snd] in *.
    destruct H as [H E]. apply Z.eqb_eq in E. subst. now exists r.
  - intros [r H]. exists (u, m, r). split; [reflexivity|].
    apply filter_In. split; [exact H|]. cbn [fst snd]. apply Z.eqb_refl.
Qed.

Lemma insert_not_nil {V : Type} k (v : V) d : Dict.insert k v d <> [].
Proof. destruct d as [|[k' v'] d]; simpl; [|destruct (k =? k')]; discriminate. Qed.

Lemma load_ratings_nonempty training : forall md ud md' ud',
  (forall u rs, Dict.lookup u ud = Some rs -> rs <> []) ->
  load_ratings training md ud = inr (md', ud') ->
  forall u rs, Dict.lookup u ud' = Some rs -> rs <> [].
Proof.
  induction training as [|[[u0 m0] r0] rest IH]; intros md ud md' ud' Q.
  - simpl. now intros [= <- <-].
  - cbn [load_ratings]. cbv zeta.
    destruct (user_entry_ready u0 ud) as (ratings & E & _). rewrite E.
    destruct (Dict.lookup m0 md) as [mv|]; [|discriminate].
    apply IH. intros u rs. rewrite lookup_insert.
    destruct (Z.eqb_spec u u0) as [-> | N].
    + intros [= <-]. apply insert_not_nil.
    + rewrite user_entry_others by exact N. apply Q.
Qed.

Lemma init_parts catalog training e :
  Movie_Recommendations_init catalog training = inr e ->
  load_ratings training (load_movies catalog) Dict.empty =
    inr (movie_dict e, user_dict e).
Proof.
  unfold Movie_Recommendations_init.
  destruct (load_ratings training (load_movies catalog) Dict.empty)
    as [x | [md ud]]; [discriminate|].
  now intros [= <-].
Qed.

Lemma init_raters_agree catalog training e :
  Movie_Recommendations_init catalog training = inr e -> raters_agree e.
Proof.
  intros H. apply init_parts in H. intros m mv u Hm.
  rewrite (load_ratings_movies _ _ _ _ _ m H) in Hm.
  change (rating_of e u m) with (rating_in (user_dict e) u m).
  rewrite (load_ratings_ratings _ _ _ _ _ u m H), last_rating_from.
  destruct (Dict.lookup m (load_movies catalog)) as [mv0|] eqn:E0; [|discriminate].
  injection Hm as <-. cbn [append_users users].
  assert (F : users mv0 = []).
  { unfold load_movies in E0. rewrite load_movies_lookup in E0.
    destruct (last_title catalog m); [|discriminate].
    now injection E0 as <-. }
  rewrite F. cbn [app]. rewrite raters_of_In. unfold rating_in. simpl.
  split; [now right | intros [N | X]; [congruence | exact X]].
Qed.

Lemma raters_agree_carried e e' :
  only_caches_grow e e' -> raters_agree e -> raters_agree e'.
Proof.
  intros (Eu & Ek & H) A m mv' u Hm.
  destruct (Dict.lookup m (movie_dict e)) as [mv|] eqn:E.
  - destruct (H m mv E) as (mv'' & Hm' & _ & _ & Hus & _).
    rewrite Hm in Hm'. injection Hm' as <-.
    unfold rating_of. rewrite Eu, Hus. now apply A.
  - exfalso. apply (same_keys_lookup _ _ m Ek); congruence.
Qed.

(** X1. When every training row rates a catalog movie, the constructor
    returns an engine. *)
Theorem init_succeeds catalog training :
  (forall u m r, In (u, m, r) training -> In m (map fst catalog)) ->
  exists e, Movie_Recommendations_init catalog training = inr e.
Proof.
  intros H. unfold Movie_Recommendations_init.
  destruct (load_ratings_succeeds training (load_movies catalog) Dict.empty)
    as (md & ud & ->).
  - intros u m r Hin. apply lookup_keys, load_movies_keys. now apply (H u m r).
  - now eexists.
Qed.

Lemma init_succeeds_witness :
  exists e, Movie_Recommendations_init example_catalog disjoint_training = inr e.
Proof.
  apply (init_succeeds example_catalog disjoint_training).
  intros u m r [H | [H | []]]; injection H as <- <- <-; simpl; auto.
Defined.

(** X2. In the engine the constructor returns, the catalog holds under
    [k] the movie with id [k], the title of the last catalog row for [k],
    the users of the training rows for [k] in row order (a user once per
    row, also when the row repeats), and an empty memo table; it holds
    nothing under an id without a catalog row. *)
Theorem init_movie_objects catalog training e k :
  Movie_Recommendations_init catalog training = inr e ->
  Dict.lookup k (movie_dict e) =
    option_map (fun t => {| id := k; title := t;
                            users := raters_of training k;
                            similarities := Dict.empty |})
               (last_title catalog k).
Proof.
  intros H. apply init_parts in H.
  rewrite (load_ratings_movies _ _ _ _ _ k H).
  unfold load_movies. rewrite load_movies_lookup.
  destruct (last_title catalog k); reflexivity.
Qed.

Lemma init_movie_objects_witness :
  Dict.lookup 1 (movie_dict example_engine) =
    option_map (fun t => {| id := 1; title := t;
                            users := raters_of example_training 1;
                            similarities := Dict.empty |})
               (last_title example_catalog 1).
Proof.
  apply (init_movie_objects example_catalog example_training example_engine 1).
  reflexivity.
Defined.

(** X3. In the engine the constructor returns, the rating of user [u] for
    movie [m] is that of the last training row for the pair, and there is
    none when no row has the pair. *)
Theorem init_ratings_last_row catalog training e u m :
  Movie_Recommendations_init catalog training = inr e ->
  rating_of e u m = last_rating training u m /\
  (rating_of e u m <> None <-> exists r, In (u, m, r) training).
Proof.
  intros H. apply init_parts in H.
  change (rating_of e u m) with (rating_in (user_dict e) u m).
  rewrite (load_ratings_ratings _ _ _ _ _ u m H).
  split; [reflexivity|]. rewrite last_rating_from.
  split; [intros [N | X]; [now elim N | exact X] | now right].
Qed.

Lemma init_ratings_last_row_witness :
  rating_of example_engine 1 2 = last_rating example_training 1 2 /\
  (rating_of example_engine 1 2 <> None <->
   exists r, In (1, 2, r) example_training).
Proof.
  apply (init_ratings_last_row example_catalog example_training example_engine 1 2).
  reflexivity.
Defined.

(** X4. On a built engine the two indices agree: a user is in a catalog
    movie's rater list exactly when the user's ratings hold the movie. *)
Theorem rater_lists_agree e m mv u :
  reachable e ->
  Dict.lookup m (movie_dict e) = Some mv ->
  (In u (users mv) <-> rating_of e u m <> None).
Proof.
  intros R. revert m mv u. change (raters_agree e).
  induction R as [catalog training e H | o e R IH].
  - exact (init_raters_agree catalog training e H).
  - apply (raters_agree_carried e); [|exact IH].
    now apply run_keeps, reachable_inv.
Qed.

Lemma rater_lists_agree_witness :
  In 3 [1; 2; 3] <-> rating_of example_engine 3 1 <> None.
Proof.
  apply (rater_lists_agree example_engine 1
           {| id := 1; title := "A"; users := [1; 2; 3];
              similarities := Dict.empty |} 3 example_engine_reachable).
  reflexivity.
Defined.

(** X5. On a built engine every known user has at least one rating. *)
Theorem users_have_ratings e u ratings :
  reachable e ->
  Dict.lookup u (user_dict e) = Some ratings ->
  ratings <> [].
Proof.
  intros R. revert u ratings.
  induction R as [catalog training e H | o e R IH]; intros u ratings.
  - apply init_parts in H.
    apply (load_ratings_nonempty training (load_movies catalog) Dict.empty
             (movie_dict e) (user_dict e)); [|exact H].
    intros u' rs E. discriminate.
  - destruct (run_keeps o e (reachable_inv e R)) as [_ (-> & _)]. apply IH.
Qed.

Lemma users_have_ratings_witness : example_ratings_3 <> [].
Proof.
  apply (users_have_ratings example_engine 3 example_ratings_3
           example_engine_reachable).
  reflexivity.
Defined.

(** ** The memo tables of a built engine *)

Lemma same_keys_contains {V : Type} (d d' : Dict.t V) k :
  Dict.keys d' = Dict.keys d -> Dict.contains k d' = Dict.contains k d.
Proof.
  intros E.
  destruct (Dict.contains k d) eqn:H.
  - apply contains_true. apply contains_true in H.
    apply (same_keys_lookup _ _ k (eq_sym E)). exact H.
  - apply contains_false. apply contains_false in H.
    destruct (Dict.lookup k d') eqn:H'; [|reflexivity].
    exfalso. apply (same_keys_lookup _ _ k E); congruence.
Qed.

Lemma cache_in_catalog e a b s :
  cache e a b = Some s -> Dict.contains a (movie_dict e) = true.
Proof.
  unfold cache. intros H. apply contains_true.
  destruct (Dict.lookup a (movie_dict e)); [discriminate | discriminate].
Qed.

Lemma prediction_spec_stable e e' u m :
  user_dict e' = user_dict e -> prediction_spec e' u m = prediction_spec e u m.
Proof.
  intros Eu. unfold prediction_spec, weights, weighted_ratings. now rewrite Eu.
Qed.

(** The engine after a call that missed the memo table. *)
Lemma get_similarity_miss e a b self mb :
  inv e ->
  Dict.lookup a (movie_dict e) = Some self ->
  Dict.lookup b (movie_dict e) = Some mb ->
  Dict.lookup b (similarities self) = None ->
  snd (get_similarity a b e) =
    memoised a b (similarity_spec a b (user_dict e)) self
      (if b =? a
       then set_similarity self b (similarity_spec a b (user_dict e))
       else mb) e.
Proof.
  intros I Ea Eb Es.
  assert (Hb : Dict.contains b (movie_dict e) = true)
    by (apply contains_true; congruence).
  rewrite get_similarity_eq, Ea, Hb, Es. cbn [negb]. cbv zeta.
  rewrite lookup_insert, Eb.
  rewrite (inv_ids e I a self Ea), compute_similarity_spec,
    (inv_ids e I a self Ea).
  destruct (b =? a); reflexivity.
Qed.

(** X6. On a built engine every memo entry is right and mirrored: the
    entry for [b] in the table of [a] is the similarity of the two movies
    as the formula gives it from the ratings, the table of [b] holds the
    same value for [a], and both are catalog movies. *)
Theorem memo_entries_sound e a b s :
  reachable e ->
  cache e a b = Some s ->
  s = similarity_spec a b (user_dict e) /\
  cache e b a = Some s /\
  Dict.contains a (movie_dict e) = true /\
  Dict.contains b (movie_dict e) = true.
Proof.
  intros R H. pose proof (reachable_inv e R) as I.
  destruct (inv_cache e I a b s H) as [E S].
  repeat split; try assumption.
  - exact (cache_in_catalog e a b s H).
  - exact (cache_in_catalog e b a s S).
Qed.

Lemma memo_entries_sound_witness :
  let e := run (OpGetSimilarity 1 2) example_engine in
  similarity_spec 1 2 (user_dict example_engine) = similarity_spec 1 2 (user_dict e) /\
  cache e 2 1 = Some (similarity_spec 1 2 (user_dict example_engine)) /\
  Dict.contains 1 (movie_dict e) = true /\
  Dict.contains 2 (movie_dict e) = true.
Proof.
  apply (memo_entries_sound (run (OpGetSimilarity 1 2) example_engine) 1 2).
  - apply reachable_run, example_engine_reachable.
  - reflexivity.
Defined.

(** X7. Memoisation does not show: after any operations on a built
    engine, [predict_rating] and [get_similarity] return, or raise, what
    they would have before. *)
Theorem memoisation_transparent e e' u m a b :
  reachable e ->
  later e e' ->
  fst (predict_rating u m e') = fst (predict_rating u m e) /\
  fst (get_similarity a b e') = fst (get_similarity a b e).
Proof.
  intros R L. pose proof (reachable_inv e R) as I.
  destruct (later_keeps e e' I L) as [I' G].
  pose proof G as (Eu & Ek & _).
  assert (C : forall k, Dict.contains k (movie_dict e') =
                        Dict.contains k (movie_dict e))
    by (intros k; now apply same_keys_contains).
  split.
  - destruct (Dict.contains u (user_dict e)) eqn:Hu;
      [destruct (Dict.contains m (movie_dict e)) eqn:Hm|].
    + destruct (predict_rating_known e u m I Hu Hm) as (e1 & -> & _).
      destruct (predict_rating_known e' u m I') as (e1' & -> & _).
      * now rewrite Eu.
      * now rewrite C.
      * cbn [fst]. now rewrite (prediction_spec_stable e e' u m Eu).
    + rewrite !predict_rating_eq, Eu, C, Hu, Hm. reflexivity.
    + rewrite !predict_rating_eq, Eu, Hu. reflexivity.
  - destruct (Dict.contains a (movie_dict e)) eqn:Ha;
      [destruct (Dict.contains b (movie_dict e)) eqn:Hb|].
    + destruct (get_similarity_correct e a b I Ha Hb) as (e1 & -> & _).
      destruct (get_similarity_correct e' a b I') as (e1' & -> & _);
        try (now rewrite C).
      cbn [fst]. now rewrite Eu.
    + rewrite !get_similarity_eq, C, Hb.
      pose proof (C a) as Ca. rewrite Ha in Ca.
      apply contains_true in Ha, Ca.
      destruct (Dict.lookup a (movie_dict e)); [|congruence].
      destruct (Dict.lookup a (movie_dict e')); [reflexivity | congruence].
    + pose proof (C a) as Ca. rewrite Ha in Ca.
      apply contains_false in Ha, Ca.
      now rewrite !get_similarity_eq, Ha, Ca.
Qed.

Lemma memoisation_transparent_witness :
  let e' := run (OpPredictRating 3 2) example_engine in
  fst (predict_rating 3 2 e') = fst (predict_rating 3 2 example_engine) /\
  fst (get_similarity 1 2 e') = fst (get_similarity 1 2 example_engine).
Proof.
  apply (memoisation_transparent example_engine
           (run (OpPredictRating 3 2) example_engine) 3 2 1 2
           example_engine_reachable).
  apply later_run, later_now.
Defined.

(** X8. On a built engine [get_similarity a b] writes no memo entry but
    the one for [b] in the table of [a] and the one for [a] in the table
    of [b]. *)
Theorem get_similarity_footprint e a b x y :
  reachable e ->
  (x, y) <> (a, b) -> (x, y) <> (b, a) ->
  cache (snd (get_similarity a b e)) x y = cache e x y.
Proof.
  intros R N1 N2. pose proof (reachable_inv e R) as I.
  destruct (Dict.lookup a (movie_dict e)) as [self|] eqn:Ea;
    [|now rewrite get_similarity_eq, Ea].
  destruct (Dict.lookup b (movie_dict e)) as [mb|] eqn:Eb.
  - destruct (Dict.lookup b (similarities self)) as [s|] eqn:Es.
    + rewrite (get_similarity_hit e a b s); [reflexivity | |].
      * unfold cache. now rewrite Ea.
      * apply contains_true. congruence.
    + rewrite (get_similarity_miss e a b self mb I Ea Eb Es).
      rewrite (memoised_cache a b _ self mb e x y Ea Eb).
      fold (written a b x y).
      destruct (written a b x y) eqn:W; [|reflexivity].
      destruct (written_true _ _ _ _ W) as [[-> ->] | [-> ->]]; congruence.
  - apply contains_false in Eb. now rewrite get_similarity_eq, Ea, Eb.
Qed.

Lemma get_similarity_footprint_witness :
  cache (snd (get_similarity 1 2 example_engine)) 1 1 = cache example_engine 1 1.
Proof.
  apply (get_similarity_footprint example_engine 1 2 1 1
           example_engine_reachable); discriminate.
Defined.

(** ** The batch *)

(** The rows before the first bad one are predicted, and the loop goes on
    from there. *)
Lemma predict_ratings_loop_prefix pre : forall e,
  inv e ->
  Forall (known_row e) pre ->
  exists e',
    inv e' /\ only_caches_grow e e' /\
    forall rest acc,
      predict_ratings_loop (pre ++ rest) acc e =
      predict_ratings_loop rest (acc ++ map (tuple_spec e) pre) e'.
Proof.
  induction pre as [|[[u m] r] pre IH]; intros e I K.
  - exists e. split; [exact I|]. split; [apply only_caches_grow_refl|].
    intros rest acc. simpl. now rewrite app_nil_r.
  - inversion K as [|? ? Hrow K']; subst. destruct Hrow as [Hu Hm].
    destruct (Dict.lookup m (movie_dict e)) as [mv|] eqn:Em;
      [|apply contains_true in Hm; congruence].
    destruct (predict_rating_known e u m I Hu Hm) as (e1 & E1 & I1 & G1).
    destruct (IH e1 I1) as (e' & I' & G' & Hloop).
    + eapply Forall_impl; [|exact K']. intros row. now apply known_row_stable.
    + exists e'. split; [exact I'|].
      split; [now apply (only_caches_grow_trans e e1)|].
      intros rest acc. cbn [app predict_ratings_loop].
      unfold bind, get_movie_dict, index, ret. rewrite Em, E1, Hloop.
      rewrite <- app_assoc. cbn [app map tuple_spec]. unfold title_of at 1.
      rewrite Em.
      rewrite (map_ext (tuple_spec e1) (tuple_spec e))
        by (intros row; now apply tuple_spec_stable).
      reflexivity.
Qed.

(** X9. On a built engine [predict_ratings] stops at the first row that
    names an unknown user or movie and returns no tuple: it raises
    [KeyError] when the movie of that row is not in the catalog and
    [BadInputError] when the movie is and the user is not known. *)
Theorem predict_ratings_first_bad_row e pre u m r post :
  reachable e ->
  Forall (known_row e) pre ->
  ~ known_row e (u, m, r) ->
  fst (predict_ratings (pre ++ (u, m, r) :: post) e) =
    inl (if Dict.contains m (movie_dict e) then BadInputError else KeyError).
Proof.
  intros R K B. pose proof (reachable_inv e R) as I.
  destruct (predict_ratings_loop_prefix pre e I K) as (e' & I' & G & Hloop).
  unfold predict_ratings. rewrite Hloop.
  pose proof G as (Eu & Ek & _).
  cbn [predict_ratings_loop]. unfold bind, get_movie_dict, index, ret, raise.
  rewrite <- (same_keys_contains (movie_dict e) (movie_dict e') m Ek).
  destruct (Dict.lookup m (movie_dict e')) as [mv|] eqn:Em.
  - assert (Hm : Dict.contains m (movie_dict e') = true)
      by (apply contains_true; congruence).
    rewrite Hm, predict_rating_eq, Eu.
    destruct (Dict.contains u (user_dict e)) eqn:Hu; [|reflexivity].
    exfalso. apply B. split; [exact Hu|].
    now rewrite <- (same_keys_contains (movie_dict e) (movie_dict e') m Ek).
  - apply contains_false in Em. now rewrite Em.
Qed.

Lemma predict_ratings_first_bad_row_witness :
  fst (predict_ratings ([(3, 2, Qc_of_Z 1)] ++ (7, 1, Qc_of_Z 2) :: []) example_engine) =
    inl (if Dict.contains 1 (movie_dict example_engine)
         then BadInputError else KeyError).
Proof.
  apply (predict_ratings_first_bad_row example_engine
           [(3, 2, Qc_of_Z 1)] 7 1 (Qc_of_Z 2) [] example_engine_reachable).
  - constructor; [split; reflexivity | constructor].
  - intros [H _]. discriminate H.
Defined.

Lemma predict_ratings_loop_columns rows : forall acc e preds e',
  predict_ratings_loop rows acc e = (inr preds, e') ->
  map tuple_user preds = map tuple_user acc ++ map (fun row => fst (fst row)) rows /\
  map tuple_actual preds = map tuple_actual acc ++ map snd rows.
Proof.
  induction rows as [|[[u m] r] rest IH]; intros acc e preds e'.
  - simpl. intros [= <- <-]. now rewrite !app_nil_r.
  - cbn [predict_ratings_loop]. unfold bind, get_movie_dict, index, ret, raise.
    destruct (Dict.lookup m (movie_dict e)) as [mv|]; [|discriminate].
    destruct (predict_rating u m e) as [[x | p] e1]; [discriminate|].
    intros H. destruct (IH _ _ _ _ H) as [H1 H2].
    rewrite H1, H2, !map_app, <- !app_assoc. split; reflexivity.
Qed.

(** X10. Whatever the engine, when [predict_ratings] returns, its tuples
    carry the users and the actual ratings of the rows, row by row; there
    are as many tuples as rows, so the two lists the driver hands to
    [correlation] have the same length. *)
Theorem predict_ratings_columns rows e preds e' :
  predict_ratings rows e = (inr preds, e') ->
  map tuple_user preds = map (fun row => fst (fst row)) rows /\
  map tuple_actual preds = map snd rows /\
  List.length (map tuple_predicted preds) = List.length (map tuple_actual preds) /\
  List.length preds = List.length rows.
Proof.
  intros H. destruct (predict_ratings_loop_columns rows [] e preds e' H) as [H1 H2].
  simpl in H1, H2. repeat split; try assumption.
  - now rewrite !length_map.
  - rewrite <- (length_map tuple_actual preds), H2. apply length_map.
Qed.

Lemma predict_ratings_columns_witness :
  map tuple_user [(3, "B"%string, Qc_of_Z 4, Qc_of_Z 1)] = [3] /\
  map tuple_actual [(3, "B"%string, Qc_of_Z 4, Qc_of_Z 1)] = [Qc_of_Z 1] /\
  List.length (map tuple_predicted [(3, "B"%string, Qc_of_Z 4, Qc_of_Z 1)]) =
    List.length (map tuple_actual [(3, "B"%string, Qc_of_Z 4, Qc_of_Z 1)]) /\
  List.length [(3, "B"%string, Qc_of_Z 4, Qc_of_Z 1)] = 1%nat.
Proof.
  apply (predict_ratings_columns [(3, 2, Qc_of_Z 1)] example_engine
           [(3, "B"%string, Qc_of_Z 4, Qc_of_Z 1)]
           (run (OpPredictRating 3 2) example_engine)).
  vm_compute. do 2 f_equal. apply f_equal2; [|reflexivity].
  apply f_equal2; [|reflexivity]. apply f_equal2; [reflexivity|].
  apply Qc_is_canon. reflexivity.
Defined.

(** ** Values on the scale *)



(** X11. With all ratings in [0.5, 5.0], [compute_similarity] returns a
    value between 0 and 1, whatever the two movies. *)
Theorem compute_similarity_unit_interval e self other_movie_id md :
  ratings_on_scale e = true ->
  (0 <= compute_similarity self other_movie_id md (user_dict e) /\
   compute_similarity self other_movie_id md (user_dict e) <= 1)%Qc.
Proof.
  intros S. rewrite compute_similarity_spec. now apply similarity_spec_unit.
Qed.

Lemma compute_similarity_unit_interval_witness :
  (0 <= compute_similarity (Movie_init 1 "A") 2 Dict.empty (user_dict example_engine) /\
   compute_similarity (Movie_init 1 "A") 2 Dict.empty (user_dict example_engine) <= 1)%Qc.
Proof.
  apply (compute_similarity_unit_interval example_engine (Movie_init 1 "A") 2
           Dict.empty).
  reflexivity.
Defined.







(** X14. [compute_similarity] is symmetric in the two movies and does not
    read [movie_dict]: for any two movie objects and any ratings, the
    similarity of the first with the id of the second is that of the
    second with the id of the first, whatever catalog is passed. *)
Theorem compute_similarity_symmetric self other md md' ud :
  compute_similarity self (id other) md ud =
  compute_similarity other (id self) md' ud.
Proof.
  rewrite !compute_similarity_spec. apply similarity_spec_sym.
Qed.

(** ** Filling the memo tables *)

Lemma predict_rating_loop_memoises m entries : forall e total sum_of_similarities,
  inv e ->
  Dict.contains m (movie_dict e) = true ->
  (forall k r, In (k, r) entries -> Dict.contains k (movie_dict e) = true) ->
  forall k r, In (k, r) entries ->
    cache (snd (predict_rating_loop m entries total sum_of_similarities e)) k m =
      Some (similarity_spec k m (user_dict e)) /\
    cache (snd (predict_rating_loop m entries total sum_of_similarities e)) m k =
      Some (similarity_spec k m (user_dict e)).
Proof.
  induction entries as [|[key rating] rest IH]; intros e t s I Hm Hk k r Hin;
    [destruct Hin|].
  cbn [predict_rating_loop]. unfold bind.
  destruct (get_similarity_correct e key m I) as (e1 & -> & I1 & G1 & C1 & C1');
    [apply (Hk key rating); now left | exact Hm |].
  pose proof G1 as (Eu & _).
  assert (Hk1 : forall k' r', In (k', r') rest ->
                  Dict.contains k' (movie_dict e1) = true).
  { intros k' r' H. apply (only_caches_grow_contains e); [exact G1|].
    apply (Hk k' r'). now right. }
  assert (Hm1 : Dict.contains m (movie_dict e1) = true)
    by now apply (only_caches_grow_contains e).
  destruct Hin as [[= -> ->] | Hin].
  - destruct (predict_rating_loop_correct m rest e1
                (t + similarity_spec k m (user_dict e) * r)%Qc
                (s + similarity_spec k m (user_dict e))%Qc I1 Hm1 Hk1)
      as (e' & -> & _ & G').
    cbn [snd]. split; now apply (only_caches_grow_cache e1).
  - rewrite <- Eu. now apply (IH e1 _ _ I1 Hm1 Hk1 k r).
Qed.

(** X15. On a built engine, once [predict_rating u m] has run for a
    catalog movie [m] that [u] has not rated, the similarity of [m] with
    every movie [u] rated is in the memo tables of both movies. *)
Theorem predict_rating_memoises e u m ratings k r :
  reachable e ->
  Dict.lookup u (user_dict e) = Some ratings ->
  Dict.contains m (movie_dict e) = true ->
  Dict.lookup m ratings = None ->
  In (k, r) ratings ->
  cache (snd (predict_rating u m e)) k m = Some (similarity_spec k m (user_dict e)) /\
  cache (snd (predict_rating u m e)) m k = Some (similarity_spec k m (user_dict e)).
Proof.
  intros R Hu Hm Hr Hin. pose proof (reachable_inv e R) as I.
  assert (Hk : forall k' r', In (k', r') ratings ->
                 Dict.contains k' (movie_dict e) = true).
  { intros k' r' H. destruct (Dict.lookup k' ratings) as [r0|] eqn:E.
    - apply (inv_rated e I u k' r0). unfold rating_of. now rewrite Hu.
    - exfalso. now apply (In_lookup k' r' ratings H). }
  pose proof (predict_rating_loop_memoises m ratings e 0%Qc 0%Qc I Hm Hk k r Hin)
    as M.
  rewrite predict_rating_eq. unfold Dict.contains at 1 3.
  rewrite Hu, Hm, Hr. cbn [negb orb].
  destruct (predict_rating_loop m ratings 0%Qc 0%Qc e) as [[x | [t s]] e'];
    [exact M|].
  destruct (Qc_eq_dec s 0%Qc); exact M.
Qed.

Lemma predict_rating_memoises_witness :
  cache (snd (predict_rating 3 2 example_engine)) 1 2 =
    Some (similarity_spec 1 2 (user_dict example_engine)) /\
  cache (snd (predict_rating 3 2 example_engine)) 2 1 =
    Some (similarity_spec 1 2 (user_dict example_engine)).
Proof.
  apply (predict_rating_memoises example_engine 3 2 example_ratings_3 1 (Qc_of_Z 4)
           example_engine_reachable); try reflexivity.
  now left.
Defined.

(** ** The driver *)

(** X16. When the constructor returns an engine and every test row names
    a known user and a catalog movie, the driver's correlation is what
    [pearsonr] makes of the predictions of the rows and the actual
    ratings of the rows, in row order. *)
Theorem main_correlates pearsonr catalog training test e :
  Movie_Recommendations_init catalog training = inr e ->
  Forall (known_row e) test ->
  main pearsonr catalog training test =
    match pearsonr (map (fun row => prediction_spec e (fst (fst row)) (snd (fst row))) test)
                   (map snd test) with
    | inr p => inr (fst p)
    | inl x => inl x
    end.
Proof.
  intros H K. unfold main, predict_ratings. rewrite H.
  destruct (predict_ratings_loop_known test [] e (init_inv _ _ _ H) K)
    as (e' & -> & _).
  cbn [app]. cbv zeta. rewrite !map_map.
  rewrite (map_ext (fun x => tuple_predicted (tuple_spec e x))
                   (fun row => prediction_spec e (fst (fst row)) (snd (fst row))))
    by (intros [[u m] r]; reflexivity).
  rewrite (map_ext (fun x => tuple_actual (tuple_spec e x)) snd)
    by (intros [[u m] r]; reflexivity).
  unfold correlation.
  destruct (pearsonr _ _); reflexivity.
Qed.

Lemma main_correlates_witness :
  main constant_pearsonr example_catalog example_training [(3, 2, Qc_of_Z 1)] =
    inr (Qc_of_Z 1).
Proof.
  apply (main_correlates constant_pearsonr example_catalog example_training
           [(3, 2, Qc_of_Z 1)] example_engine example_engine_built).
  constructor; [split; reflexivity | constructor].
Defined.
